(** * unoconv-server: the converter library (src/lib/converter.js)

    A shallow embedding of the [Converter] class: the help-text parser
    ([parseHelpInfo] with [regexCommandHelp]), the URL command parser
    ([parseUrlCommand]), the two runners ([convert], [convertToStream])
    and the process reaper ([killSoffice]).

    JavaScript strings are modelled by [string]; a character stands for a
    code unit in the range 0..255.  Plain objects used as dictionaries are
    finite maps from property names to JavaScript values.  Numbers are
    IEEE 754 doubles with the arithmetic of the standard; the conversions
    between numbers and strings are those of the runtime.  Callbacks that
    Node invokes later (stream events, timers, completion callbacks) are
    modelled as explicit events fed to a step function, which returns the
    new state and the requests made to the outside world.  What the
    converter prints with [console.log] is left out. *)

From Stdlib Require Import ZArith Ascii String List Bool Lia DecimalString.
From Stdlib.Strings Require Import Byte.
From Stdlib.Floats Require SpecFloat.
From stdpp Require Import base option list strings gmap.

Local Open Scope string_scope.
Local Open Scope list_scope.

(** ** JavaScript values *)

Module JS.

(** An [Error] object, identified by its constructor and its message. *)
Inductive error :=
| Error (message : string)
| TypeError (message : string).

(** A number is an IEEE 754 double: a signed zero, a signed infinity,
    NaN, or a finite value [(-1)^s * m * 2^e].  The doubles proper are the
    values that satisfy [double]; the arithmetic is that of the standard,
    rounding to nearest, ties to even. *)
Definition number : Type := SpecFloat.spec_float.

Definition prec : Z := 53.
Definition emax : Z := 1024.

Definition double (n : number) : bool := SpecFloat.valid_binary prec emax n.

Definition NaN : number := SpecFloat.S754_nan.

Definition Infinity : number := SpecFloat.S754_infinity false.

(** The number nearest to an integer; this is how an integer literal such
    as [600] is read. *)
Definition Num (z : Z) : number :=
  SpecFloat.binary_normalize prec emax z 0 false.

(** The values that flow through the converter: [undefined] (which also
    stands for [null]), booleans, strings, numbers and error objects. *)
Inductive value :=
| Undefined
| Bool (b : bool)
| Str (s : string)
| Number (n : number)
| ErrorObject (e : error).

#[global] Instance error_eq_dec : EqDecision error.
Proof. solve_decision. Defined.

#[global] Instance number_eq_dec : EqDecision number.
Proof. solve_decision. Defined.

#[global] Instance value_eq_dec : EqDecision value.
Proof. solve_decision. Defined.

(** [ToBoolean]: what [if (v)], [while (v)], [!v] and [v || w] test. *)
Definition truthy (v : value) : bool :=
  match v with
  | Undefined => false
  | Bool b => b
  | Str s => negb (String.eqb s "")
  | Number (SpecFloat.S754_zero _) => false
  | Number SpecFloat.S754_nan => false
  | Number _ => true
  | ErrorObject _ => true
  end.

(** [v || w] *)
Definition or (v w : value) : value := if truthy v then v else w.

(** [ToString], as applied by template literals and by [new Error(v)];
    the conversion of a number is the runtime's [Number::toString], a
    parameter here. *)
Definition to_string (NumberToString : number -> string) (v : value)
  : string :=
  match v with
  | Undefined => "undefined"
  | Bool true => "true"
  | Bool false => "false"
  | Str s => s
  | Number n => NumberToString n
  | ErrorObject (Error message) => "Error: " ++ message
  | ErrorObject (TypeError message) => "TypeError: " ++ message
  end.

(** [ToNumber]; the conversion of a string is the runtime's
    [StringToNumber], a parameter here. *)
Definition to_number (StringToNumber : string -> number) (v : value)
  : number :=
  match v with
  | Undefined => NaN
  | Bool true => Num 1
  | Bool false => Num 0
  | Str s => StringToNumber s
  | Number n => n
  | ErrorObject _ => NaN
  end.

(** [n > 0] on numbers: false for [NaN], for both zeros and for the
    negative numbers. *)
Definition number_gt0 (n : number) : bool :=
  SpecFloat.SFltb (Num 0) n.

(** [n * k] on numbers, for an integer literal [k]. *)
Definition number_mul (n : number) (k : Z) : number :=
  SpecFloat.SFmul prec emax n (Num k).

(** [String.prototype.split] with a one-character separator: the pieces
    between separators, so that the empty string yields one empty piece. *)
Fixpoint split (sep : ascii) (s : string) : list string :=
  match s with
  | EmptyString => [EmptyString]
  | String c s' =>
      if Ascii.eqb c sep then EmptyString :: split sep s'
      else match split sep s' with
           | piece :: pieces => String c piece :: pieces
           | [] => [String c EmptyString]
           end
  end.

End JS.

(** ** The Node runtime

    The library functions the converter calls, as parameters of the model:
    the theorems hold for every runtime. *)

Module Node.

(** A [Buffer]: a sequence of bytes. *)
Abbreviation Buffer := (list byte).

Record Runtime := {
  tmpdir : string;                        (* os.tmpdir() *)
  path_name : string -> string;           (* path.parse(p).name *)
  utf8 : Buffer -> string;                (* buffer.toString() *)
  StringToNumber : string -> JS.number;   (* ToNumber of a string *)
  NumberToString : JS.number -> string    (* ToString of a number *)
}.

(** The longest delay of a timer, in milliseconds. *)
Definition TIMEOUT_MAX : Z := 2147483647.

(** [Math.trunc] of a finite number. *)
Definition trunc (n : JS.number) : Z :=
  match n with
  | SpecFloat.S754_finite s m e =>
      let whole := Z.shiftl (Z.pos m) e in
      if s then (- whole)%Z else whole
  | _ => 0%Z
  end.

(** The delay in milliseconds after which the callback of
    [setTimeout(callback, ms)] is due, as Node's timers set it: [ms] cut
    down to whole milliseconds when it lies between 1 and [TIMEOUT_MAX],
    and 1 otherwise, which is the case of [NaN] and of infinity too. *)
Definition timer_delay (ms : JS.number) : Z :=
  if SpecFloat.SFleb (JS.Num 1) ms && SpecFloat.SFleb ms (JS.Num TIMEOUT_MAX)
  then trunc ms
  else 1%Z.

(** The file system, as the set of the paths that exist. *)
Abbreviation files := (gset string).

(** [p] is [dir] or lies under it. *)
Definition inside (dir p : string) : bool :=
  String.eqb p dir || String.prefix (dir +:+ "/") p.

(** What a successful recursive removal of [dir] leaves. *)
Definition remove_tree (dir : string) (fs : files) : files :=
  filter (fun p => inside dir p = false) fs.

End Node.

(** ** Regular expressions

    The fragment of JavaScript regular expressions that [regexCommandHelp]
    is written in, with the backtracking matcher of the language: greedy
    quantifiers, leftmost alternative first, capture groups numbered from
    1 and the whole match under number 0. *)

Module Regex.

Inductive re :=
| Start                          (* ^ *)
| End                            (* $ *)
| Char (p : ascii -> bool)       (* a character or a character class *)
| Seq (r1 r2 : re)               (* r1 r2 *)
| Optional (r : re)              (* (?:r)? *)
| Plus (p : ascii -> bool)       (* [class]+ *)
| Capture (n : nat) (r : re).    (* (r), the n-th group *)

(** The array a match returns: entry [n] is the text of group [n], [None]
    standing for [undefined] (the group took no part in the match). *)
Abbreviation captures := (list (option string)).

(** The text between the start [s] of a match and what is left, [s']. *)
Definition consumed (s s' : string) : string :=
  String.substring 0 (String.length s - String.length s') s.

(** [p*], greedy: as many characters as possible, giving them back one at a
    time when the continuation fails. *)
Fixpoint star (p : ascii -> bool) (i : nat) (s : string) (c : captures)
    (k : nat -> string -> captures -> option captures) : option captures :=
  match s with
  | String a s' =>
      if p a then
        match star p (S i) s' c k with
        | Some x => Some x
        | None => k i s c
        end
      else k i s c
  | EmptyString => k i s c
  end.

(** [rmatch r i s c k]: match [r] at index [i], where [s] is the rest of
    the input, and pass on to the continuation [k]. *)
Fixpoint rmatch (r : re) (i : nat) (s : string) (c : captures)
    (k : nat -> string -> captures -> option captures) : option captures :=
  match r with
  | Start => if Nat.eqb i 0 then k i s c else None
  | End => match s with EmptyString => k i s c | String _ _ => None end
  | Char p =>
      match s with
      | String a s' => if p a then k (S i) s' c else None
      | EmptyString => None
      end
  | Seq r1 r2 => rmatch r1 i s c (fun i' s' c' => rmatch r2 i' s' c' k)
  | Optional r1 =>
      match rmatch r1 i s c k with
      | Some x => Some x
      | None => k i s c
      end
  | Plus p =>
      match s with
      | String a s' => if p a then star p (S i) s' c k else None
      | EmptyString => None
      end
  | Capture n r1 =>
      rmatch r1 i s c
        (fun i' s' c' => k i' s' (<[n := Some (consumed s s')]> c'))
  end.

(** Number of capture groups plus one. *)
Fixpoint size (r : re) : nat :=
  match r with
  | Seq r1 r2 => Nat.max (size r1) (size r2)
  | Optional r1 => size r1
  | Capture n r1 => Nat.max (S n) (size r1)
  | _ => 1
  end.

(** [regex.exec(s)] without flags: the first index at which the pattern
    matches, scanning from the left. *)
Fixpoint exec_from (r : re) (i : nat) (s : string) : option captures :=
  match rmatch (Capture 0 r) i s (replicate (size r) None)
               (fun _ _ c => Some c) with
  | Some c => Some c
  | None =>
      match s with
      | String _ s' => exec_from r (S i) s'
      | EmptyString => None
      end
  end.

Definition exec (r : re) (s : string) : option captures := exec_from r 0 s.

(** Character classes. *)
Definition code (a : ascii) : nat := nat_of_ascii a.

(** [\s], on the code units below 256: tab, line feed, vertical tab, form
    feed, carriage return, space and no-break space. *)
Definition space (a : ascii) : bool :=
  (Nat.leb 9 (code a) && Nat.leb (code a) 13)
  || Nat.eqb (code a) 32 || Nat.eqb (code a) 160.

(** [[a-z]] *)
Definition lower (a : ascii) : bool :=
  Nat.leb 97 (code a) && Nat.leb (code a) 122.

(** [[a-zA-Z]] *)
Definition letter (a : ascii) : bool :=
  lower a || (Nat.leb 65 (code a) && Nat.leb (code a) 90).

(** [[a-z=]] *)
Definition lower_or_equals (a : ascii) : bool :=
  lower a || Ascii.eqb a "=".

(** [.]: anything but a line terminator. *)
Definition dot (a : ascii) : bool :=
  negb (Nat.eqb (code a) 10 || Nat.eqb (code a) 13).

Definition lit (x : ascii) : re := Char (Ascii.eqb x).

(** The capture groups that occur in a pattern. *)
Fixpoint groups (r : re) : list nat :=
  match r with
  | Seq r1 r2 => groups r1 ++ groups r2
  | Optional r1 => groups r1
  | Capture n r1 => n :: groups r1
  | _ => []
  end.

(** Patterns every match of which takes at least one character. *)
Fixpoint consumes (r : re) : bool :=
  match r with
  | Char _ | Plus _ => true
  | Seq r1 r2 => consumes r1 || consumes r2
  | Capture _ r1 => consumes r1
  | _ => false
  end.

(** Patterns every match of which leaves group [n] set to a non-empty
    text: the group lies on the mandatory path, captures a pattern that
    takes a character, and is not set again afterwards. *)
Fixpoint captures_nonempty (n : nat) (r : re) : bool :=
  match r with
  | Seq r1 r2 =>
      (captures_nonempty n r1 && negb (bool_decide (n ∈ groups r2)))
      || captures_nonempty n r2
  | Capture m r1 =>
      if Nat.eqb n m then consumes r1 else captures_nonempty n r1
  | _ => false
  end.

End Regex.

(** ** The option catalog and the URL command parser *)

Module Converter.

Import JS Node.

(** One entry of [this.options], as built by [parseHelpInfo]; [short] is
    [None] when the capture group did not take part in the match. *)
Module Opt.

Record t := {
  short : option string;
  option : string;
  hasValue : bool;
  isPublic : bool
}.

End Opt.
Abbreviation OptionDef := Opt.t.

(** The parsed command returned by [parseUrlCommand].  The keys of
    [options] are long names of the catalog, which [regexCommandHelp]
    makes of lower-case letters: no assignment meets a special property
    of objects. *)
Record Command := {
  args : list value;
  options : gmap string value
}.

(** [/^\s+(?:\-([a-zA-Z]),\s)?--([a-z]+)(?:=([a-z=]+))\s+(.+)$/] *)
Definition regexCommandHelp : Regex.re :=
  let seq := Regex.Seq in
  seq Regex.Start
  (seq (Regex.Plus Regex.space)
  (seq (Regex.Optional
          (seq (Regex.lit "-")
          (seq (Regex.Capture 1 (Regex.Char Regex.letter))
          (seq (Regex.lit ",") (Regex.Char Regex.space)))))
  (seq (Regex.lit "-")
  (seq (Regex.lit "-")
  (seq (Regex.Capture 2 (Regex.Plus Regex.lower))
  (seq (seq (Regex.lit "=")
            (Regex.Capture 3 (Regex.Plus Regex.lower_or_equals)))
  (seq (Regex.Plus Regex.space)
  (seq (Regex.Capture 4 (Regex.Plus Regex.dot))
       Regex.End)))))))).

Definition availableOptions : list string :=
  [ "export"; "format"; "field"; "import"; "filter"; "output"; "filter";
    "password" ].

(** [availableOptions.includes(option)] *)
Definition includes (l : list string) (x : string) : bool :=
  existsb (String.eqb x) l.

(** [pad(text, length)] of the pad package: spaces added on the right up to
    the given length. *)
Definition pad (text : string) (n : nat) : string :=
  text ++ String.concat "" (replicate (n - String.length text) " ").

(** The double quote character, for the help document. *)
Definition dquote : string := String (ascii_of_nat 34) EmptyString.

(** The lines [help] starts with. *)
Definition help_header : list string :=
  [ "unoconv-server, a simple RESTful server for converting documents";
    "  please visit https://github.com/alphakevin/unoconv-server";
    "";
    "converting:";
    "  upload with multipart/form-data:";
    "    curl -F file=@example.docx http://127.0.0.1:4000/convert/format/pdf/output/newname.pdf > result.pdf";
    "  upload raw:";
    "    curl -X POST \";
    "      -T " +:+ dquote +:+ "example.docx" +:+ dquote +:+ " \";
    "      -H " +:+ dquote +:+ "Content-Type: application/vnd.openxmlformats-officedocument.wordprocessingml.document" +:+ dquote +:+ " \";
    "      -H " +:+ dquote +:+ "Content-Disposition: attachment; filename=" +:+ dquote +:+ "example.docx" +:+ dquote +:+ dquote +:+ " \";
    "      http://127.0.0.1:4000/convert/format/pdf/output/newname.pdf > result.pdf";
    "";
    "converter options:" ].

(** The body of the [forEach] callback up to the construction of [opt]:
    [None] when the line does not match the pattern.  The second component
    is [message].  Groups 2 and 4 are set by every match; their default
    below is never used. *)
Definition parse_line (line : string) : option (OptionDef * string) :=
  match Regex.exec regexCommandHelp line with
  | None => None
  | Some result =>
      let short := default None (result !! 1) in
      let option := default "" (default None (result !! 2)) in
      let valueStr := default None (result !! 3) in
      let message := default "" (default None (result !! 4)) in
      Some ({| Opt.short := short;
               Opt.option := option;
               Opt.hasValue :=
                 match valueStr with
                 | Some text => truthy (Str text)
                 | None => false
                 end;
               Opt.isPublic := includes availableOptions option |},
            message)
  end.

(** The line [help.push] adds for a public option. *)
Definition help_line (opt : OptionDef) (message : string) : string :=
  "  " ++
  match Opt.short opt with
  | Some text =>
      if truthy (Str text) then "/" ++ text ++ "," else "   "
  | None => "   "
  end
  ++ " /" ++ pad (Opt.option opt ++ "/<value>") 17 ++ "  " ++ message.

(** The [forEach] over the lines: the descriptors pushed to [options] and
    the lines pushed to [help], both in order. *)
Fixpoint parse_lines (lines : list string) : list OptionDef * list string :=
  match lines with
  | [] => ([], [])
  | line :: lines' =>
      let (opts, help) := parse_lines lines' in
      match parse_line line with
      | None => (opts, help)
      | Some (opt, message) =>
          (opt :: opts,
           if Opt.isPublic opt then help_line opt message :: help else help)
      end
  end.

(** The state [parseHelpInfo] leaves in the converter. *)
Record HelpInfo := {
  converterHelpText : string;
  catalog_options : list OptionDef
}.

Definition parseHelpInfo (helpText : string) : HelpInfo :=
  let lines := split (ascii_of_nat 10) helpText in
  let (opts, help) := parse_lines lines in
  {| converterHelpText :=
       String.concat (String (ascii_of_nat 10) EmptyString)
                     (help_header ++ help ++ [""]);
     catalog_options := opts |}.

(** [_.find(this.options, o => o.option === option || o.short === option)] *)
Definition matches (name : string) (o : OptionDef) : bool :=
  String.eqb (Opt.option o) name
  || match Opt.short o with
     | Some s => String.eqb s name
     | None => false
     end.

Definition find_option (catalog : list OptionDef) (name : string)
  : option OptionDef :=
  List.find (matches name) catalog.

(** [option.length === 1 ? '-' : '--'] *)
Definition prefix_of (name : string) : string :=
  if Nat.eqb (String.length name) 1 then "-" else "--".

(** The argument pushed for the value of an option. *)
Definition value_arg (long : string) (v : value) : value :=
  if String.eqb long "format" && bool_decide (v = Str "txt")
  then Str "text" else v.

(** The [while (option)] loop of [parseUrlCommand].  [tokens] is what is left
    of the queue [list]; [list.shift()] on an empty queue is [undefined],
    which ends the loop like an empty token does. *)
Fixpoint parse_loop (catalog : list OptionDef) (tokens : list string)
    (args : list value) (options : gmap string value)
  : error + (list value * gmap string value) :=
  match tokens with
  | [] => inr (args, options)
  | name :: list1 =>
      if String.eqb name "" then inr (args, options)
      else
        match find_option catalog name with
        | None => inl (Error ("invalid option '" ++ name ++ "'"))
        | Some define =>
            let args1 := args ++ [Str (prefix_of name ++ name)] in
            let long := Opt.option define in
            if Opt.hasValue define then
              match list1 with
              | v :: list2 =>
                  parse_loop catalog list2
                    (args1 ++ [value_arg long (Str v)])
                    (<[long := Str v]> options)
              | [] =>
                  inr (args1 ++ [value_arg long Undefined],
                       <[long := Undefined]> options)
              end
            else
              parse_loop catalog list1 args1 (<[long := Bool true]> options)
        end
  end.

(** [options.format], [undefined] when the property is absent. *)
Definition get (options : gmap string value) (key : string) : value :=
  default Undefined (options !! key).

(** [if (!options.format) options.format = 'pdf'] *)
Definition default_format (options : gmap string value) : gmap string value :=
  if truthy (get options "format") then options
  else <["format" := Str "pdf"]> options.

Definition parseUrlCommand (catalog : list OptionDef) (commands : string)
  : error + Command :=
  match parse_loop catalog (split "/" commands) [] ∅ with
  | inl e => inl e
  | inr (a, o) => inr {| args := a; options := default_format o |}
  end.

(** *** Reading a token queue the way the loop does

    Two auxiliary readings of a token queue, used to state properties of
    the parser.  [supplied] lists the long names of the options the loop
    consumes, in order.  [complete] holds of a queue that the loop consumes
    entirely, group by group: every group is a non-empty catalog name,
    followed by one value token when the option takes a value; the token
    after a complete prefix is therefore in option position. *)

Fixpoint supplied (catalog : list OptionDef) (tokens : list string)
  : list string :=
  match tokens with
  | [] => []
  | name :: list1 =>
      if String.eqb name "" then []
      else
        match find_option catalog name with
        | None => []
        | Some define =>
            Opt.option define ::
            (if Opt.hasValue define then
               match list1 with
               | _ :: list2 => supplied catalog list2
               | [] => []
               end
             else supplied catalog list1)
        end
  end.

Fixpoint complete (catalog : list OptionDef) (tokens : list string) : bool :=
  match tokens with
  | [] => true
  | name :: list1 =>
      negb (String.eqb name "") &&
      match find_option catalog name with
      | None => false
      | Some define =>
          if Opt.hasValue define then
            match list1 with
            | _ :: list2 => complete catalog list2
            | [] => false
            end
          else complete catalog list1
      end
  end.

(** ** What the converter asks of the outside world *)

Inductive action :=
| Spawn (command : string) (args : list value)
    (* childProcess.spawn(command, args) *)
| SetTimeout (ms : number)
    (* setTimeout(() => { handler.kill() }, ms) *)
| Kill
    (* handler.kill() *)
| Archive (directory target : string) (level : Z)
    (* a zip archive of [directory] piped into a write stream on [target] *)
| Rimraf (directory : string)
    (* rimraf(directory, callback) *)
| Lookup (command psargs : string)
    (* ps.lookup({ command, psargs }, callback) *)
| PsKill (pid : string).
    (* ps.kill(pid, callback) *)

(** ** killSoffice *)

Module KillSoffice.

(** An entry of [resultList]. *)
Record process := {
  pid : string;
  command : string
}.

Definition killSoffice : list action :=
  [Lookup "/usr/lib/libreoffice/program/soffice.bin" "ux"].

(** The callback given to [ps.lookup]; a falsy entry of [resultList] is
    [None]. *)
Definition lookup_callback (rt : Runtime) (err : value)
    (resultList : list (option process))
  : error + list action :=
  if truthy err then inl (Error (to_string (NumberToString rt) err))
  else
    inr (flat_map
           (fun entry =>
              match entry with
              | Some process => [PsKill (pid process)]
              | None => []
              end)
           resultList).

(** The callback given to [ps.kill]. *)
Definition kill_callback (rt : Runtime) (err : value) : error + unit :=
  if truthy err then inl (Error (to_string (NumberToString rt) err))
  else inr tt.

End KillSoffice.

(** ** convert *)

Module Convert.

(** The state of the promise [conversion]. *)
Inductive promise :=
| Pending
| Resolved (result : string)
| Rejected (reason : error).

(** What [convert] computes before it spawns the converter. *)
Record Job := {
  inputFile : string;
  isHtml : bool;
  outputDirPath : string;
  outputFile : string;
  timeout : value
}.

(** What changes while the job runs: the chunks pushed to [errors], the
    promise, the archive path once the archive stream is open, the
    directory whose removal is under way, and the file system. *)
Record State := {
  errors : list Buffer;
  conversion : promise;
  archiveFilePath : option string;
  removing : option string;
  fs : files
}.

(** [options.timeout > 0 ? options.timeout : 600] *)
Definition resolve_timeout (rt : Runtime) (options : gmap string value)
  : value :=
  if number_gt0 (to_number (StringToNumber rt) (get options "timeout"))
  then get options "timeout"
  else Number (Num 600).

(** The two errors the exit handler rejects with. *)
Definition ConversionFailed (rt : Runtime) (errors : list Buffer) : error :=
  Error (utf8 rt (mjoin errors)).

Definition ConversionTimedOut (rt : Runtime) (timeout : value) : error :=
  Error ("No result from conversion (probably timed out after "
         +:+ to_string (NumberToString rt) timeout +:+ "s)").

(** The state in which the promise executor leaves the job. *)
Definition first_state (fs : files) : State :=
  {| errors := [];
     conversion := Pending;
     archiveFilePath := None;
     removing := None;
     fs := fs |}.

(** The synchronous part of [convert]: the job, its first state, and the
    process and timer it starts.  [path.parse] throws on a path that is
    not a string. *)
Definition convert (rt : Runtime) (inputFile : string) (args : list value)
    (options : gmap string value) (fs : files)
  : error + (Job * State * list action) :=
  let format := get options "format" in
  let isHtml := truthy format && bool_decide (format = Str "html") in
  let outputDirPath :=
    if isHtml then tmpdir rt +:+ "/" +:+ path_name rt inputFile
    else tmpdir rt in
  match JS.or (get options "output") (Str inputFile) with
  | Str path =>
      let outputFile :=
        outputDirPath +:+ "/" +:+ path_name rt path +:+ "."
        +:+ to_string (NumberToString rt) format in
      let timeout := resolve_timeout rt options in
      inr ({| inputFile := inputFile;
              isHtml := isHtml;
              outputDirPath := outputDirPath;
              outputFile := outputFile;
              timeout := timeout |},
           first_state fs,
           [ Spawn "unoconv"
               (args ++ [Str "--output"; Str outputFile; Str inputFile]);
             SetTimeout
               (number_mul (to_number (StringToNumber rt) timeout) 1000) ])
  | _ => inl (TypeError "ERR_INVALID_ARG_TYPE")
  end.

(** What Node reports back to the job. *)
Inductive event :=
| StderrData (chunk : Buffer)   (* handler.stderr 'data' *)
| Exit                          (* handler 'exit' *)
| TimerFired                    (* the timer set by [convert] *)
| ArchiveClose                  (* archiveFileStream 'close' *)
| RimrafDone (ok : bool)        (* the callback of rimraf *)
| Created (path : string).      (* a file or directory came into being *)

(** [reject(e)]: settles a pending promise, which runs the [catch] handler
    and so [killSoffice]. *)
Definition reject (st : State) (e : error) : State * list action :=
  match conversion st with
  | Pending =>
      ({| errors := errors st;
          conversion := Rejected e;
          archiveFilePath := archiveFilePath st;
          removing := removing st;
          fs := fs st |},
       KillSoffice.killSoffice)
  | _ => (st, [])
  end.

(** [resolve(path)] *)
Definition resolve (st : State) (path : string) : State :=
  match conversion st with
  | Pending =>
      {| errors := errors st;
         conversion := Resolved path;
         archiveFilePath := archiveFilePath st;
         removing := removing st;
         fs := fs st |}
  | _ => st
  end.

(** The handlers [convert] registers, one per event. *)
Definition step (rt : Runtime) (job : Job) (st : State) (ev : event)
  : State * list action :=
  match ev with
  | StderrData chunk =>
      ({| errors := errors st ++ [chunk];
          conversion := conversion st;
          archiveFilePath := archiveFilePath st;
          removing := removing st;
          fs := fs st |}, [])
  | Exit =>
      if negb (Nat.eqb (length (errors st)) 0) then
        reject st (ConversionFailed rt (errors st))
      else if negb (bool_decide (outputFile job ∈ fs st)) then
        reject st (ConversionTimedOut rt (timeout job))
      else if isHtml job then
        let archive := outputDirPath job +:+ ".zip" in
        ({| errors := errors st;
            conversion := conversion st;
            archiveFilePath := Some archive;
            removing := removing st;
            fs := fs st |},
         [Archive (outputDirPath job) archive 9])
      else (resolve st (outputFile job), [])
  | TimerFired => (st, [Kill])
  | ArchiveClose =>
      match archiveFilePath st with
      | Some archive =>
          (resolve {| errors := errors st;
                      conversion := conversion st;
                      archiveFilePath := archiveFilePath st;
                      removing := Some (outputDirPath job);
                      fs := fs st |} archive,
           [Rimraf (outputDirPath job)])
      | None => (st, [])
      end
  | RimrafDone ok =>
      match removing st with
      | Some dir =>
          ({| errors := errors st;
              conversion := conversion st;
              archiveFilePath := archiveFilePath st;
              removing := None;
              fs := if ok then remove_tree dir (fs st) else fs st |}, [])
      | None => (st, [])
      end
  | Created path =>
      ({| errors := errors st;
          conversion := conversion st;
          archiveFilePath := archiveFilePath st;
          removing := removing st;
          fs := {[ path ]} ∪ fs st |}, [])
  end.

(** The state after a sequence of events. *)
Definition run (rt : Runtime) (job : Job) (st : State) (evs : list event)
  : State :=
  foldl (fun st ev => (step rt job st ev).1) st evs.

(** The chunks the converter wrote to its standard error during a
    sequence of events. *)
Definition stderr_chunks (evs : list event) : list Buffer :=
  flat_map (fun ev =>
              match ev with
              | StderrData chunk => [chunk]
              | _ => []
              end) evs.

End Convert.

(** ** convertToStream *)

Module ConvertToStream.

(** What the returned stream [output] emits. *)
Inductive emission :=
| Data (chunk : Buffer)
| ErrorEvent (payload : string).

(** The stream and the names bound by [convertToStream].  [errors] is
    declared [const]. *)
Record State := {
  inputFile : string;
  encoding : option string;
  errors : string;
  emitted : list emission;
  fs : files
}.

Definition convertToStream (inputFile : string) (args : list value)
    (options : gmap string value) (fs : files) : State * list action :=
  ({| inputFile := inputFile;
      encoding :=
        if bool_decide (get options "format" = Str "txt")
        then Some "utf8" else None;
      errors := "";
      emitted := [];
      fs := fs |},
   [Spawn "unoconv" (args ++ [Str "--stdout"; Str inputFile])]).

(** What Node reports back; the exit code is [None] ([null]) when the
    process was ended by a signal. *)
Inductive event :=
| StdoutData (chunk : Buffer)   (* handler.stdout piped into output *)
| StderrData (data : string)    (* handler.stderr 'data' *)
| Exit (code : option Z).       (* handler 'exit' *)

(** [code > 0] *)
Definition code_gt0 (code : option Z) : bool :=
  match code with
  | Some z => Z.ltb 0 z
  | None => false
  end.

(** The handlers, one per event; [inl] is an exception that leaves the
    handler.  [errors += data] assigns to a constant. *)
Definition step (st : State) (ev : event) : error + State :=
  match ev with
  | StdoutData chunk =>
      inr {| inputFile := inputFile st;
             encoding := encoding st;
             errors := errors st;
             emitted := emitted st ++ [Data chunk];
             fs := fs st |}
  | StderrData data =>
      inl (TypeError "Assignment to constant variable.")
  | Exit code =>
      if bool_decide (inputFile st ∈ fs st) then
        inr {| inputFile := inputFile st;
               encoding := encoding st;
               errors := errors st;
               emitted :=
                 if code_gt0 code
                    || negb (Nat.eqb (String.length (errors st)) 0)
                 then emitted st ++ [ErrorEvent (errors st)]
                 else emitted st;
               fs := fs st ∖ {[ inputFile st ]} |}
      else
        inl (Error ("ENOENT: no such file or directory, unlink '"
                    +:+ inputFile st +:+ "'"))
  end.

(** A sequence of events; an exception that leaves a handler is not
    caught by the converter and ends the run. *)
Fixpoint run (st : State) (evs : list event) : error + State :=
  match evs with
  | [] => inr st
  | ev :: evs' =>
      match step st ev with
      | inl e => inl e
      | inr st' => run st' evs'
      end
  end.

End ConvertToStream.

End Converter.

(** ** A runtime and a catalog to run the model on

    [Sample.runtime] follows Node on the inputs the examples use: POSIX
    paths without trailing slash, ASCII bytes, strings of up to fifteen
    decimal digits with at most one point among them (any other string is
    read as [NaN]), and numbers whose exact decimal notation is that
    short.  [Sample.helpText] is laid out like the option list that
    [unoconv --help] prints. *)

Module Sample.

Import JS Node Converter.

Definition path_name (p : string) : string :=
  let base := List.last (split "/" p) "" in
  match split "." base with
  | [] | [_] => base
  | ["" ; _] => base
  | pieces => String.concat "." (removelast pieces)
  end.

(** The digits read so far are [acc]; [scale] is the power of ten to
    divide by once a point has been read. *)
Fixpoint digits (s : string) (acc : Z) (scale : option Z) : number :=
  match s with
  | EmptyString =>
      match scale with
      | None => Num acc
      | Some k => SpecFloat.SFdiv prec emax (Num acc) (Num k)
      end
  | String a s' =>
      let d := (Z.of_nat (nat_of_ascii a) - 48)%Z in
      if (Z.leb 0 d && Z.leb d 9)%bool
      then digits s' (10 * acc + d)%Z (Z.mul 10 <$> scale)
      else if Ascii.eqb a "." && bool_decide (scale = None)
      then digits s' acc (Some 1%Z)
      else NaN
  end.

Definition StringToNumber (s : string) : number :=
  if String.eqb s "." then NaN else digits s 0 None.

Definition whole (z : Z) : string := NilZero.string_of_int (Z.to_int z).

(** Drops the zeros that end a string of digits. *)
Fixpoint strip_zeros (s : string) : string :=
  match s with
  | EmptyString => EmptyString
  | String a s' =>
      match strip_zeros s' with
      | EmptyString =>
          if Ascii.eqb a "0" then EmptyString else String a EmptyString
      | t => String a t
      end
  end.

(** The exact decimal notation of a number. *)
Definition NumberToString (n : number) : string :=
  match n with
  | SpecFloat.S754_nan => "NaN"
  | SpecFloat.S754_infinity s => (if s then "-" else "") +:+ "Infinity"
  | SpecFloat.S754_zero _ => "0"
  | SpecFloat.S754_finite s m e =>
      let sign := if s then "-" else "" in
      if Z.leb 0 e then sign +:+ whole (Z.shiftl (Z.pos m) e)
      else
        let k := (- e)%Z in
        let fraction := whole ((Z.pos m mod 2 ^ k) * 5 ^ k) in
        let zeros :=
          String.concat ""
            (replicate (Z.to_nat k - String.length fraction) "0") in
        match strip_zeros (zeros +:+ fraction) with
        | EmptyString => sign +:+ whole (Z.shiftr (Z.pos m) k)
        | places =>
            sign +:+ whole (Z.shiftr (Z.pos m) k) +:+ "." +:+ places
        end
  end.

Definition runtime : Runtime :=
  {| tmpdir := "/tmp";
     Node.path_name := path_name;
     utf8 := string_of_list_byte;
     Node.StringToNumber := StringToNumber;
     Node.NumberToString := NumberToString |}.

Definition helpText : string :=
  String.concat (String (ascii_of_nat 10) EmptyString)
    [ "usage: unoconv [options] file [file2 ..]";
      "";
      "unoconv options:";
      "  -c, --connection=string  use a custom connection string";
      "  -d, --doctype=type       specify document type";
      "                           (document, graphics, presentation, spreadsheet)";
      "  -e, --export=name=value  set export filter options";
      "                           eg. -e PageRange=1-2";
      "  -f, --format=format      specify the output format";
      "  -F, --field=name=value   replace user-defined text field with value";
      "  -i, --import=string      set import filter option string";
      "                           eg. -i utf8";
      "  -l, --listener           start a permanent listener to use by unoconv clients";
      "  -n, --no-launch          fail if no listener is found (default: launch one)";
      "  -o, --output=name        output basename, filename or directory";
      "      --pipe=name          alternative method of connection using a pipe";
      "  -p, --port=port          specify the port (default: 2002)";
      "                           to be used by client or listener";
      "      --password=string    provide a password to decrypt the document";
      "  -s, --server=server      specify the server address (default: 127.0.0.1)";
      "                           to be used by client or listener";
      "      --show               list the available output formats";
      "      --stdout             write output to stdout";
      "  -t, --template=file      import the styles from template (.ott)";
      "  -T, --timeout=secs       timeout after secs if connection to listener fails";
      "  -v, --verbose            be more and more verbose (-vvv for debugging)";
      "      --version            display version number of unoconv, OOo/LO and platform details";
      "  -P, --preserve           keep timestamp and permissions of the original document" ].

(** [this.options] after [parseHelpInfo] on [helpText]. *)
Definition catalog : list OptionDef :=
  Eval vm_compute in catalog_options (parseHelpInfo helpText).

(** The job and first state of a conversion of [/data/report.docx] to
    pdf, and to html once the converter has written its output. *)
Definition pdf_job : Convert.Job :=
  {| Convert.inputFile := "/data/report.docx";
     Convert.isHtml := false;
     Convert.outputDirPath := "/tmp";
     Convert.outputFile := "/tmp/report.pdf";
     Convert.timeout := Number (Num 600) |}.

(** The number 0.5, and the same conversion with half a second to run. *)
Definition half : number :=
  Eval vm_compute in SpecFloat.SFdiv prec emax (Num 1) (Num 2).

Definition timed_job : Convert.Job :=
  {| Convert.inputFile := "/data/report.docx";
     Convert.isHtml := false;
     Convert.outputDirPath := "/tmp";
     Convert.outputFile := "/tmp/report.pdf";
     Convert.timeout := Number half |}.

Definition html_job : Convert.Job :=
  {| Convert.inputFile := "/data/report.docx";
     Convert.isHtml := true;
     Convert.outputDirPath := "/tmp/report";
     Convert.outputFile := "/tmp/report/report.html";
     Convert.timeout := Number (Num 600) |}.

Definition html_files : files :=
  {[ "/tmp/report"; "/tmp/report/report.html" ]}.

End Sample.

(** ** Further readings of a token queue *)

Module Parsing.

Import JS Converter.

(** The catalog entries of the options the loop of [parseUrlCommand]
    consumes, in order; [supplied] lists their long names. *)
Fixpoint consumed_options (catalog : list OptionDef) (tokens : list string)
  : list OptionDef :=
  match tokens with
  | [] => []
  | name :: list1 =>
      if String.eqb name "" then []
      else
        match find_option catalog name with
        | None => []
        | Some define =>
            define ::
            (if Opt.hasValue define then
               match list1 with
               | _ :: list2 => consumed_options catalog list2
               | [] => []
               end
             else consumed_options catalog list1)
        end
  end.

(** The number of arguments an option contributes: its flag, and its
    value when it takes one. *)
Definition arity (define : OptionDef) : nat :=
  if Opt.hasValue define then 2 else 1.

(** A value that is a string. *)
Definition is_string (v : value) : bool :=
  match v with
  | Str _ => true
  | _ => false
  end.

End Parsing.

(** ** Further readings of a conversion *)

Module Running.

Import JS Node Converter.

(** The requests a job makes to the outside world along a sequence of
    events, in order. *)
Fixpoint requests (rt : Runtime) (job : Convert.Job) (st : Convert.State)
    (evs : list Convert.event) : list action :=
  match evs with
  | [] => []
  | ev :: evs' =>
      (Convert.step rt job st ev).2
      ++ requests rt job (Convert.step rt job st ev).1 evs'
  end.

(** The calls of the process reaper among some requests. *)
Definition is_lookup (a : action) : bool :=
  match a with
  | Lookup _ _ => true
  | _ => false
  end.

(** Whether a promise has been rejected. *)
Definition is_rejected (p : Convert.promise) : bool :=
  match p with
  | Convert.Rejected _ => true
  | _ => false
  end.

(** What holds of every state a job goes through: an archive is open
    only for an html job and under the name of the directory followed by
    [.zip]; the directory under removal is the output directory; and the
    promise is settled only with the values the handlers give it. *)
Definition job_invariant (rt : Runtime) (job : Convert.Job)
    (st : Convert.State) : Prop :=
  (Convert.archiveFilePath st = None \/
   (Convert.isHtml job = true /\
    Convert.archiveFilePath st = Some (Convert.outputDirPath job +:+ ".zip")))
  /\
  (Convert.removing st = None \/
   Convert.removing st = Some (Convert.outputDirPath job)) /\
  match Convert.conversion st with
  | Convert.Pending => True
  | Convert.Resolved path =>
      path = if Convert.isHtml job
             then Convert.outputDirPath job +:+ ".zip"
             else Convert.outputFile job
  | Convert.Rejected e =>
      e = Convert.ConversionTimedOut rt (Convert.timeout job) \/
      exists chunks,
        chunks <> [] /\ e = Convert.ConversionFailed rt chunks
  end.

(** A value the parser stores for an option that takes a value. *)
Definition string_or_undefined (v : value) : Prop :=
  v = Undefined \/ exists s, v = Str s.



End Running.

(** ** The timeout guard in time

    Times are in milliseconds, counted from the call of [convert]. *)

Module Guard.

Import JS Node Converter.

(** The delay that [convert] hands to [setTimeout]: [timeout * 1000]. *)
Definition delay (rt : Runtime) (timeout : value) : number :=
  number_mul (to_number (StringToNumber rt) timeout) 1000.

(** The time at which the callback of the timer of a job is due. *)
Definition due (rt : Runtime) (job : Convert.Job) : Z :=
  timer_delay (delay rt (Convert.timeout job)).

Definition is_timer (ev : Convert.event) : bool :=
  match ev with
  | Convert.TimerFired => true
  | _ => false
  end.

Definition is_kill (a : action) : bool :=
  match a with
  | Kill => true
  | _ => false
  end.

(** A trace gives each event the time at which Node delivers it.  Node
    does not run the callback of a timer before the timer is due. *)
Definition on_time (rt : Runtime) (job : Convert.Job)
    (trace : list (Z * Convert.event)) : Prop :=
  Forall (fun te => is_timer te.2 = true -> (due rt job <= te.1)%Z) trace.

(** The times at which a job calls [handler.kill()] along a trace. *)
Fixpoint kills (rt : Runtime) (job : Convert.Job) (st : Convert.State)
    (trace : list (Z * Convert.event)) : list Z :=
  match trace with
  | [] => []
  | (t, ev) :: trace' =>
      (if existsb is_kill (Convert.step rt job st ev).2 then [t] else [])
      ++ kills rt job (Convert.step rt job st ev).1 trace'
  end.

End Guard.

(** ** The texts a pattern matches *)

Module RegexLang.

Import Regex.

(** Every character of [t] is in the class [p]. *)
Fixpoint all (p : ascii -> bool) (t : string) : bool :=
  match t with
  | EmptyString => true
  | String a t' => p a && all p t'
  end.

(** The texts a pattern can take, anchors apart. *)
Fixpoint accepts (r : re) (t : string) : Prop :=
  match r with
  | Start | End => t = EmptyString
  | Char p => exists a, t = String a EmptyString /\ p a = true
  | Seq r1 r2 =>
      exists t1 t2, t = (t1 +:+ t2) /\ accepts r1 t1 /\ accepts r2 t2
  | Optional r1 => t = EmptyString \/ accepts r1 t
  | Plus p => t <> EmptyString /\ all p t = true
  | Capture _ r1 => accepts r1 t
  end.

(** The groups of a pattern, each with the pattern it captures. *)
Fixpoint group_patterns (r : re) : list (nat * re) :=
  match r with
  | Seq r1 r2 => group_patterns r1 ++ group_patterns r2
  | Optional r1 => group_patterns r1
  | Capture n r1 => (n, r1) :: group_patterns r1
  | _ => []
  end.

(** [s] is empty or starts with a character outside the class [p]: a
    greedy [p+] stops in front of it. *)
Definition stops (p : ascii -> bool) (s : string) : bool :=
  match s with
  | EmptyString => true
  | String a _ => negb (p a)
  end.

(** The anchors: patterns that take no text and set no group. *)
Definition anchor (r : re) : bool :=
  match r with
  | Start | End => true
  | _ => false
  end.

(** Patterns every match of which stops at the end of the input. *)
Fixpoint to_end (r : re) : bool :=
  match r with
  | End => true
  | Seq _ r2 => to_end r2
  | Capture _ r1 => to_end r1
  | _ => false
  end.

(** Patterns every match of which leaves group [n] set to the text that
    ends the match. *)
Fixpoint closes (n : nat) (r : re) : bool :=
  match r with
  | Seq r1 r2 => closes n r2 || (closes n r1 && anchor r2)
  | Capture m r1 => Nat.eqb n m || closes n r1
  | _ => false
  end.

(** The optional part of [regexCommandHelp], for the short flag. *)
Definition short_group : re :=
  Seq (lit "-") (Seq (Capture 1 (Char letter))
                     (Seq (lit ",") (Char space))).

(** A line in the layout of the option list of [unoconv --help]: the
    indentation, the short flag if there is one, the long flag with its
    value marker, a gap and the description. *)
Definition option_line (indent : string) (short : option ascii)
    (name marker gap message : string) : string :=
  indent +:+
  match short with
  | Some a => String "-" (String a ", ")
  | None => EmptyString
  end +:+ "--" +:+ name +:+ "=" +:+ marker +:+ gap +:+ message.

End RegexLang.

(** ** The converter object *)

Module Lifecycle.

Import JS Converter.

(** The fields of a [Converter]; [None] is [undefined], and a listener is
    known by the handle that [spawn] returned. *)
Record Instance := {
  helpText : option string;
  converterHelpText : option string;
  options : option (list OptionDef);
  listener : option nat
}.

(** The object while the promise of [init] is pending. *)
Definition new : Instance :=
  {| helpText := None; converterHelpText := None; options := None;
     listener := None |}.

(** The callback of [init], run with the standard error of
    [unoconv --help]. *)
Definition init_then (stderr : string) (c : Instance) : Instance :=
  let info := parseHelpInfo stderr in
  {| helpText := Some stderr;
     converterHelpText := Some (Converter.converterHelpText info);
     options := Some (catalog_options info);
     listener := listener c |}.

Definition getHelpText (c : Instance) : option string :=
  converterHelpText c.

(** [parseUrlCommand] as a method: [_.find] finds nothing in a collection
    that is [undefined]. *)
Definition parseUrlCommand (c : Instance) (commands : string)
  : error + Command :=
  Converter.parseUrlCommand (default [] (options c)) commands.

(** What the listener methods ask for. *)
Inductive request :=
| SpawnListener (args : list value) (handle : nat)
    (* this.listener = childProcess.spawn('unoconv', args) *)
| KillListener (handle : nat).
    (* this.listener.kill() *)

(** [startListener], [handle] being the child process that [spawn]
    returns. *)
Definition startListener (handle : nat) (c : Instance)
  : Instance * list request :=
  ({| helpText := helpText c;
      converterHelpText := converterHelpText c;
      options := options c;
      listener := Some handle |},
   [SpawnListener [Str "--listener"] handle]).

Definition stopListener (c : Instance) : Instance * list request :=
  match listener c with
  | Some handle => (c, [KillListener handle])
  | None => (c, [])
  end.

(** Calls of the two methods. *)
Inductive call :=
| Start (handle : nat)
| Stop.

Definition apply_call (c : Instance) (x : call) : Instance * list request :=
  match x with
  | Start handle => startListener handle c
  | Stop => stopListener c
  end.

(** The handles killed along a sequence of calls, in order. *)
Fixpoint killed (c : Instance) (calls : list call) : list nat :=
  match calls with
  | [] => []
  | x :: calls' =>
      flat_map (fun r => match r with
                         | KillListener handle => [handle]
                         | SpawnListener _ _ => []
                         end) (apply_call c x).2
      ++ killed (apply_call c x).1 calls'
  end.

End Lifecycle.

(** ** More values to run the model on *)

Module Examples.

Import JS Node Converter.

(** What [output/result] parses to. *)
Definition output_command : Command :=
  {| args := [Str "--output"; Str "result"];
     options := {[ "format" := Str "pdf"; "output" := Str "result" ]} |}.

(** What [format/pdf] parses to. *)
Definition pdf_command : Command :=
  {| args := [Str "--format"; Str "pdf"];
     options := {[ "format" := Str "pdf" ]} |}.

(** The entry of [format] in the sample catalog. *)
Definition format_option : OptionDef :=
  {| Opt.short := Some "f"; Opt.option := "format";
     Opt.hasValue := true; Opt.isPublic := true |}.

(** The requests [convert] starts the pdf and html sample jobs with. *)
Definition pdf_start : list action :=
  [ Spawn "unoconv"
      [Str "--output"; Str "/tmp/report.pdf"; Str "/data/report.docx"];
    SetTimeout (Num 600000) ].

Definition html_start : list action :=
  [ Spawn "unoconv"
      [Str "--output"; Str "/tmp/report/report.html";
       Str "/data/report.docx"];
    SetTimeout (Num 600000) ].


End Examples.

Import JS Node Converter.

(** * Properties *)

(** ** The matcher *)

Section RegexFacts.

Import Regex.

Lemma append_cons a (t s : string) :
  (String a t ++ s)%string = String a (t ++ s).
Proof. reflexivity. Qed.

Lemma length_append (t s : string) :
  String.length (t ++ s) = String.length t + String.length s.
Proof.
  induction t as [|a t IH]; [done|].
  rewrite append_cons. cbn [String.length]. by rewrite IH.
Qed.

Lemma append_assoc (t u s : string) :
  ((t ++ u) ++ s = t ++ (u ++ s))%string.
Proof.
  induction t as [|a t IH]; [done|]. by rewrite !append_cons, IH.
Qed.

Lemma substring_append (t s : string) :
  String.substring 0 (String.length t) (t ++ s) = t.
Proof.
  induction t as [|a t IH]; [by destruct s|].
  rewrite append_cons. cbn [String.length String.substring]. by rewrite IH.
Qed.

Lemma consumed_append (t s : string) : consumed (t ++ s) s = t.
Proof.
  unfold consumed. rewrite length_append.
  replace (String.length t + String.length s - String.length s)
    with (String.length t) by lia.
  apply substring_append.
Qed.

Lemma star_inv p s : forall i c k x,
  star p i s c k = Some x ->
  exists t s', s = (t ++ s')%string /\ k (i + String.length t) s' c = Some x.
Proof.
  induction s as [|a s IH]; intros i c k x; cbn [star].
  - intros H. exists "", "". by rewrite Nat.add_0_r.
  - destruct (p a).
    + destruct (star p (S i) s c k) as [y|] eqn:E.
      * intros [= ->]. apply IH in E as (t & s' & -> & Hk).
        exists (String a t), s'. split; [done|].
        simpl. by rewrite Nat.add_succ_r.
      * intros H. exists "", (String a s). by rewrite Nat.add_0_r.
    + intros H. exists "", (String a s). by rewrite Nat.add_0_r.
Qed.

(** Splits a conjunction of six facts, keeping the six goals. *)
Ltac split6 := split; [|split; [|split; [|split; [|split]]]].

(** What a successful match tells: the continuation was entered after some
    text [t]; groups outside the pattern are untouched; a pattern that
    [consumes] took a character; and the groups it is bound to set are set
    to a non-empty text. *)
Lemma rmatch_inv r : forall i s c k x,
  rmatch r i s c k = Some x ->
  exists t s' c',
    s = (t ++ s')%string /\
    k (i + String.length t) s' c' = Some x /\
    length c' = length c /\
    (forall n, n ∉ groups r -> c' !! n = c !! n) /\
    (consumes r = true -> t <> "") /\
    (forall n, captures_nonempty n r = true -> n < length c ->
       exists u, u <> "" /\ c' !! n = Some (Some u)).
Proof.
  induction r as [| |p|r1 IH1 r2 IH2|r1 IH1|p|m r1 IH1];
    intros i s c k x; cbn [rmatch].
  - destruct (Nat.eqb i 0); [|done]. intros H.
    exists "", s, c. rewrite Nat.add_0_r. by split6.
  - destruct s; [|done]. intros H.
    exists "", "", c. rewrite Nat.add_0_r. by split6.
  - destruct s as [|a s]; [done|]. destruct (p a); [|done]. intros H.
    exists (String a ""), s, c. simpl. rewrite Nat.add_1_r.
    by split6.
  - intros H. apply IH1 in H as (t1 & s1 & c1 & -> & H & Hl1 & Hf1 & Hc1 & Hn1).
    apply IH2 in H as (t2 & s2 & c2 & -> & H & Hl2 & Hf2 & Hc2 & Hn2).
    exists (t1 ++ t2)%string, s2, c2.
    rewrite length_append, Nat.add_assoc. split6.
    + by rewrite append_assoc.
    + done.
    + congruence.
    + intros n Hn. cbn [groups] in Hn. rewrite not_elem_of_app in Hn.
      rewrite Hf2, Hf1; tauto.
    + cbn [consumes]. intros Hc Ht.
      assert (t1 = "" /\ t2 = "") as [-> ->]
        by (destruct t1; [by destruct t2 | done]).
      apply orb_true_iff in Hc as [Hc|Hc]; [by apply Hc1 | by apply Hc2].
    + intros n Hn Hlt. cbn [captures_nonempty] in Hn.
      apply orb_true_iff in Hn as [Hn|Hn].
      * apply andb_true_iff in Hn as [Hn Hg].
        apply negb_true_iff, bool_decide_eq_false in Hg.
        destruct (Hn1 n Hn Hlt) as (u & Hu & Hcu).
        exists u. split; [done|]. by rewrite Hf2.
      * apply Hn2; [done | by rewrite Hl1].
  - destruct (rmatch r1 i s c k) as [y|] eqn:E.
    + intros [= ->]. apply IH1 in E as (t & s' & c' & -> & H & Hl & Hf & _).
      exists t, s', c'. by split6.
    + intros H. exists "", s, c. rewrite Nat.add_0_r. by split6.
  - destruct s as [|a s]; [done|]. destruct (p a); [|done]. intros H.
    apply star_inv in H as (t & s' & -> & H).
    exists (String a t), s', c. simpl. rewrite Nat.add_succ_r.
    by split6.
  - intros H. apply IH1 in H as (t & s' & c' & -> & H & Hl & Hf & Hc & Hn).
    rewrite consumed_append in H.
    exists t, s', (<[m := Some t]> c'). split6.
    + done.
    + done.
    + by rewrite length_insert.
    + intros n Hin. cbn [groups] in Hin. rewrite not_elem_of_cons in Hin.
      destruct Hin as [Hne Hin]. rewrite list_lookup_insert_ne by done.
      by apply Hf.
    + done.
    + intros n Hcn Hlt. cbn [captures_nonempty] in Hcn.
      destruct (Nat.eqb n m) eqn:Enm.
      * apply Nat.eqb_eq in Enm. subst n.
        exists t. split; [by apply Hc|].
        apply list_lookup_insert_eq. by rewrite Hl.
      * apply Nat.eqb_neq in Enm.
        destruct (Hn n Hcn Hlt) as (u & Hu & Hcu).
        exists u. split; [done|]. by rewrite list_lookup_insert_ne.
Qed.

(** A match found by [exec] sets every group that a match is bound to
    set. *)
Lemma exec_from_nonempty r n s : forall i c,
  exec_from r i s = Some c ->
  captures_nonempty n (Capture 0 r) = true ->
  n < size r ->
  exists u, u <> "" /\ c !! n = Some (Some u).
Proof.
  induction s as [|a s IH]; intros i c; cbn [exec_from];
    destruct (rmatch _ _ _ _ _) as [y|] eqn:E; try done.
  - intros [= ->] Hn Hlt.
    apply rmatch_inv in E as (t & s' & c' & _ & [= ->] & _ & _ & _ & H).
    apply H; [done | by rewrite length_replicate].
  - intros [= ->] Hn Hlt.
    apply rmatch_inv in E as (t & s' & c' & _ & [= ->] & _ & _ & _ & H).
    apply H; [done | by rewrite length_replicate].
  - eauto.
Qed.

End RegexFacts.

(** ** The help-text parser *)

(** A line without short flag: group 1 takes no part in the match. *)
Example parse_line_pipe :
  parse_line
    "      --pipe=name          alternative method of connection using a pipe"
  = Some ({| Opt.short := None; Opt.option := "pipe";
             Opt.hasValue := true; Opt.isPublic := false |},
          "alternative method of connection using a pipe").
Proof. vm_compute. reflexivity. Qed.

(** A value marker with an equals sign inside, and the line of the help
    document made for a public option. *)
Example parse_line_export :
  (fun '(opt, message) => help_line opt message) <$>
    parse_line "  -e, --export=name=value  set export filter options"
  = Some "  /e, /export/<value>     set export filter options".
Proof. vm_compute. reflexivity. Qed.

(** Continuation lines, headings and flags with a hyphen in their name do
    not match. *)
Example parse_line_ignored :
  parse_line "                           eg. -e PageRange=1-2" = None /\
  parse_line "unoconv options:" = None /\
  parse_line
    "  -n, --no-launch          fail if no listener is found (default: launch one)"
  = None.
Proof. split_and!; vm_compute; reflexivity. Qed.

(** The options of the sample help text, in the order of its lines. *)
Example sample_catalog_names :
  Opt.option <$> Sample.catalog =
  [ "connection"; "doctype"; "export"; "format"; "field"; "import";
    "output"; "pipe"; "port"; "password"; "server"; "template"; "timeout" ].
Proof. reflexivity. Qed.

Lemma parse_line_hasValue line opt message :
  parse_line line = Some (opt, message) -> Opt.hasValue opt = true.
Proof.
  unfold parse_line.
  destruct (Regex.exec regexCommandHelp line) as [result|] eqn:E; [|done].
  intros [= <- _]. cbn [Opt.hasValue].
  apply (exec_from_nonempty _ 3) in E as (u & Hu & ->);
    [|reflexivity|cbn; lia].
  simpl. by destruct u.
Qed.

(** Every descriptor that [parseHelpInfo] builds has [hasValue] set: a
    line without the [=value] marker does not match the pattern. *)
Lemma parse_lines_hasValue lines :
  Forall (fun opt => Opt.hasValue opt = true) (parse_lines lines).1.
Proof.
  induction lines as [|line lines IH]; cbn [parse_lines]; [constructor|].
  destruct (parse_lines lines) as [opts help].
  destruct (parse_line line) as [[opt message]|] eqn:E; [|done].
  constructor; [by eapply parse_line_hasValue | done].
Qed.

Lemma parseHelpInfo_hasValue helpText :
  Forall (fun opt => Opt.hasValue opt = true)
         (catalog_options (parseHelpInfo helpText)).
Proof.
  unfold parseHelpInfo.
  pose proof (parse_lines_hasValue (split (ascii_of_nat 10) helpText)) as H.
  by destruct (parse_lines _).
Qed.

(** ** The URL command parser *)

(** Closes goals [exists ext, a ++ .. = a ++ ext] about a grown list. *)
Ltac solve_ext := eexists; rewrite <- ?app_assoc; reflexivity.

Section ParserFacts.

Variable catalog : list OptionDef.

Lemma list_pair_ind {A} (P : list A -> Prop) :
  P [] ->
  (forall x, P [x]) ->
  (forall x y l, P l -> P (y :: l) -> P (x :: y :: l)) ->
  forall l, P l.
Proof.
  intros H0 H1 H2 l.
  assert (H : P l /\ forall x, P (x :: l)).
  { induction l as [|y l [IH1 IH2]]; split; auto. }
  exact (proj1 H).
Qed.

(** The loop only appends to [args], and leaves alone every property whose
    name is not among the supplied options. *)
Lemma parse_loop_frame tokens : forall a o a' o',
  parse_loop catalog tokens a o = inr (a', o') ->
  (exists ext, a' = a ++ ext) /\
  (forall k, k ∉ supplied catalog tokens -> o' !! k = o !! k).
Proof.
  induction tokens as [|name|name v l IHl IHvl] using list_pair_ind;
    intros a o a' o'; cbn [parse_loop supplied].
  - intros [= <- <-]. split; [exists []; by rewrite app_nil_r | done].
  - destruct (String.eqb name "").
    { intros [= <- <-]. split; [exists []; by rewrite app_nil_r | done]. }
    destruct (find_option catalog name) as [define|]; [|done].
    destruct (Opt.hasValue define).
    + intros [= <- <-]. split.
      * solve_ext.
      * intros k Hk. apply lookup_insert_ne. intros Heq. apply Hk. rewrite <- Heq. left.
    + intros [= <- <-]. split.
      * solve_ext.
      * intros k Hk. apply lookup_insert_ne. intros Heq. apply Hk. rewrite <- Heq. left.
  - destruct (String.eqb name "").
    { intros [= <- <-]. split; [exists []; by rewrite app_nil_r | done]. }
    destruct (find_option catalog name) as [define|]; [|done].
    destruct (Opt.hasValue define); intros Hp.
    + apply IHl in Hp as [[ext ->] Ho]. split.
      * solve_ext.
      * intros k Hk. rewrite Ho by (intros Hin; apply Hk; by right).
        apply lookup_insert_ne. intros Heq. apply Hk. rewrite <- Heq. left.
    + apply IHvl in Hp as [[ext ->] Ho]. split.
      * solve_ext.
      * intros k Hk. rewrite Ho by (intros Hin; apply Hk; by right).
        apply lookup_insert_ne. intros Heq. apply Hk. rewrite <- Heq. left.
Qed.

(** A complete prefix is consumed entirely, whatever follows it. *)
Lemma parse_loop_complete pre : forall a o,
  complete catalog pre = true ->
  exists a' o',
    (exists ext, a' = a ++ ext) /\
    forall rest,
      parse_loop catalog (pre ++ rest) a o = parse_loop catalog rest a' o'.
Proof.
  induction pre as [|name|name v l IHl IHvl] using list_pair_ind;
    intros a o; cbn [complete].
  - intros _. exists a, o. split; [exists []; by rewrite app_nil_r | done].
  - destruct (String.eqb name "") eqn:En; [done|]. cbn [negb andb].
    destruct (find_option catalog name) as [define|] eqn:Ef; [|done].
    destruct (Opt.hasValue define) eqn:Ev; [done|]. intros _.
    eexists _, _. split; [solve_ext|].
    intros rest. cbn [app parse_loop]. by rewrite En, Ef, Ev.
  - destruct (String.eqb name "") eqn:En; [done|]. cbn [negb andb].
    destruct (find_option catalog name) as [define|] eqn:Ef; [|done].
    destruct (Opt.hasValue define) eqn:Ev; intros Hc.
    + destruct (IHl (((a ++ [Str (prefix_of name ++ name)])
                       ++ [value_arg (Opt.option define) (Str v)]))
                    (<[Opt.option define := Str v]> o) Hc)
        as (a' & o' & [ext Hext] & Hr).
      exists a', o'. split; [subst a'; solve_ext|].
      intros rest. cbn [app parse_loop]. rewrite En, Ef, Ev. apply Hr.
    + destruct (IHvl (a ++ [Str (prefix_of name ++ name)])
                    (<[Opt.option define := Bool true]> o) Hc)
        as (a' & o' & [ext Hext] & Hr).
      exists a', o'. split; [subst a'; solve_ext|].
      intros rest. rewrite <- Hr. cbn [app parse_loop]. by rewrite En, Ef, Ev.
Qed.

End ParserFacts.




(** The translated argument and the stored value of [format/txt]. *)
Example parseUrlCommand_format_txt :
  parseUrlCommand Sample.catalog "format/txt" =
    inr {| args := [Str "--format"; Str "text"];
           options := {[ "format" := Str "txt" ]} |}.
Proof. vm_compute. reflexivity. Qed.

(** Short names take one dash, and a full command. *)
Example parseUrlCommand_short_names :
  parseUrlCommand Sample.catalog "f/pdf/o/result.pdf" =
    inr {| args := [Str "-f"; Str "pdf"; Str "-o"; Str "result.pdf"];
           options := {[ "format" := Str "pdf";
                         "output" := Str "result.pdf" ]} |}.
Proof. vm_compute. reflexivity. Qed.

Lemma value_arg_undefined long : value_arg long Undefined = Undefined.
Proof. unfold value_arg. by destruct (String.eqb long "format"). Qed.

Lemma value_arg_format v :
  value_arg "format" (Str v) =
  if String.eqb v "txt" then Str "text" else Str v.
Proof.
  unfold value_arg. change (String.eqb "format" "format") with true.
  destruct (String.eqb_spec v "txt") as [->|Hne]; [reflexivity|].
  rewrite bool_decide_eq_false_2; [done | congruence].
Qed.

Lemma default_format_lookup (o : gmap string value) :
  default_format o !! "format" =
  Some (if truthy (get o "format") then get o "format" else Str "pdf").
Proof.
  unfold default_format, get.
  destruct (o !! "format") as [v|] eqn:E; simpl.
  - destruct (truthy v); [done | apply lookup_insert_eq].
  - apply lookup_insert_eq.
Qed.

Lemma default_format_lookup_ne (o : gmap string value) k :
  k <> "format" -> default_format o !! k = o !! k.
Proof.
  intros Hk. unfold default_format.
  destruct (truthy _); [done | by apply lookup_insert_ne].
Qed.

(** C6. The empty command string parses to no arguments and to the options
    [{ format: 'pdf' }]; and whenever a command string parses and none of
    the options it supplies is [format], the returned options map has
    [format] set to ['pdf']. *)
Theorem parseUrlCommand_default_format (catalog : list OptionDef) :
  parseUrlCommand catalog "" =
    inr {| args := []; options := {[ "format" := Str "pdf" ]} |} /\
  forall commands cmd,
    parseUrlCommand catalog commands = inr cmd ->
    "format" ∉ supplied catalog (split "/" commands) ->
    options cmd !! "format" = Some (Str "pdf").
Proof.
  split; [reflexivity|].
  intros commands cmd Hp Hno. unfold parseUrlCommand in Hp.
  destruct (parse_loop catalog (split "/" commands) [] ∅) as [e|[a o]] eqn:E;
    [done|].
  injection Hp as <-. cbn [options].
  apply parse_loop_frame in E as [_ Ho].
  rewrite default_format_lookup. unfold get.
  by rewrite (Ho _ Hno), lookup_empty.
Qed.

(** C10. When the last segment of a command string is, in option position,
    the name of a catalog option that takes a value, parsing succeeds: the
    arguments end with the flag token followed by [undefined], and the
    options map records the long name with [undefined], except that for
    [format] the entry is then overwritten with ['pdf']. *)
Theorem parseUrlCommand_trailing_value_option
    (catalog : list OptionDef) (commands : string)
    (pre : list string) (name : string) (define : OptionDef) :
  split "/" commands = pre ++ [name] ->
  complete catalog pre = true ->
  name <> "" ->
  find_option catalog name = Some define ->
  Opt.hasValue define = true ->
  exists cmd,
    parseUrlCommand catalog commands = inr cmd /\
    (exists front,
       args cmd = front ++ [Str (prefix_of name ++ name); Undefined]) /\
    options cmd !! Opt.option define =
      Some (if String.eqb (Opt.option define) "format"
            then Str "pdf" else Undefined).
Proof.
  intros Hs Hc Hn Hf Hv. unfold parseUrlCommand. rewrite Hs.
  destruct (parse_loop_complete catalog pre [] ∅ Hc) as (a & o & _ & Hr).
  rewrite Hr. cbn [parse_loop].
  apply String.eqb_neq in Hn. rewrite Hn, Hf, Hv.
  eexists. split; [reflexivity|]. cbn [args options]. split.
  - exists a. by rewrite value_arg_undefined, <- app_assoc.
  - destruct (String.eqb (Opt.option define) "format") eqn:E.
    + apply String.eqb_eq in E. rewrite E, default_format_lookup.
      unfold get. by rewrite lookup_insert_eq.
    + apply String.eqb_neq in E. rewrite default_format_lookup_ne by done.
      apply lookup_insert_eq.
Qed.

(** C5, as amended.  A non-empty segment in option position that matches no
    long or short name of the catalog makes parsing fail at once with the
    error naming that segment, whatever tokens follow it. *)
Theorem parseUrlCommand_invalid_option
    (catalog : list OptionDef) (commands : string)
    (pre : list string) (name : string) (rest : list string) :
  split "/" commands = pre ++ name :: rest ->
  complete catalog pre = true ->
  name <> "" ->
  find_option catalog name = None ->
  parseUrlCommand catalog commands =
    inl (Error ("invalid option '" ++ name ++ "'")).
Proof.
  intros Hs Hc Hn Hf. unfold parseUrlCommand. rewrite Hs.
  destruct (parse_loop_complete catalog pre [] ∅ Hc) as (a & o & _ & Hr).
  rewrite Hr. cbn [parse_loop].
  apply String.eqb_neq in Hn. by rewrite Hn, Hf.
Qed.

(** C4, as amended.  When a command parses and the pair [format/v] is
    consumed in option position, [format] being a value-taking option of
    the catalog, the arguments contain ["--format"] followed by ["text"] if
    [v] is [txt] and by [v] itself otherwise; and if no later [format]
    option is supplied, the returned [options.format] is the untranslated
    [v], an empty [v] being replaced by the default ['pdf']. *)
Theorem parseUrlCommand_format_value
    (catalog : list OptionDef) (commands : string)
    (pre : list string) (v : string) (rest : list string)
    (define : OptionDef) (cmd : Command) :
  split "/" commands = pre ++ "format" :: v :: rest ->
  complete catalog pre = true ->
  find_option catalog "format" = Some define ->
  Opt.option define = "format" ->
  Opt.hasValue define = true ->
  parseUrlCommand catalog commands = inr cmd ->
  (exists front back,
     args cmd =
       front ++ [Str "--format";
                 if String.eqb v "txt" then Str "text" else Str v] ++ back) /\
  ("format" ∉ supplied catalog rest ->
   options cmd !! "format" =
     Some (if String.eqb v "" then Str "pdf" else Str v)).
Proof.
  intros Hs Hc Hf Hl Hv. unfold parseUrlCommand. rewrite Hs.
  destruct (parse_loop_complete catalog pre [] ∅ Hc) as (a & o & _ & Hr).
  rewrite Hr. cbn [parse_loop String.eqb Ascii.eqb Bool.eqb].
  rewrite Hf, Hv, Hl.
  destruct (parse_loop catalog rest _ _) as [e|[a' o']] eqn:E; [done|].
  intros [= <-]. cbn [args options].
  apply parse_loop_frame in E as [[ext ->] Ho]. split.
  - exists a, ext. by rewrite value_arg_format, <- !app_assoc.
  - intros Hno. rewrite default_format_lookup. unfold get.
    rewrite (Ho _ Hno), lookup_insert_eq. simpl.
    by destruct (String.eqb v "").
Qed.


(** ** The conversion runner *)

Section ConvertFacts.

Import Convert.

Variable rt : Runtime.

(** [convert] fixes the job once and for all. *)
Lemma convert_job inputFile args options fs0 job st0 acts :
  convert rt inputFile args options fs0 = inr (job, st0, acts) ->
  timeout job = resolve_timeout rt options /\
  isHtml job = bool_decide (get options "format" = Str "html") /\
  outputDirPath job =
    (if isHtml job then tmpdir rt +:+ "/" +:+ path_name rt inputFile
     else tmpdir rt) /\
  acts = [ Spawn "unoconv"
             (args ++ [Str "--output"; Str (outputFile job); Str inputFile]);
           SetTimeout
             (number_mul (to_number (StringToNumber rt) (timeout job)) 1000) ].
Proof.
  unfold convert.
  destruct (JS.or _ _) as [| |path| |]; try done.
  intros [= <- <- <-]. cbn [timeout isHtml outputDirPath outputFile].
  split_and!; try done.
  destruct (get options "format") as [|b|f|n|e]; cbn [truthy andb];
    try by rewrite ?bool_decide_eq_false_2, ?andb_false_r.
  case_bool_decide as Hf; [|by rewrite andb_false_r].
  by injection Hf as ->.
Qed.

Lemma mjoin_nil_nonempty (chunks : list Buffer) :
  Forall (fun chunk => chunk <> []) chunks ->
  mjoin chunks = [] -> chunks = [].
Proof.
  intros HF Hj. destruct HF as [|chunk chunks Hc _]; [done|].
  simpl in Hj. by apply app_eq_nil in Hj as [? _].
Qed.

(** [errors] holds the chunks written to standard error, in order. *)
Lemma run_errors job evs : forall st,
  errors (run rt job st evs) = errors st ++ stderr_chunks evs.
Proof.
  unfold run. induction evs as [|ev evs IH]; intros st; cbn [foldl].
  - by rewrite app_nil_r.
  - rewrite IH. cbn [stderr_chunks flat_map]. rewrite app_assoc. f_equal.
    destruct ev as [chunk| | | |ok|path]; cbn [step fst errors];
      rewrite ?app_nil_r; try done.
    + unfold reject, resolve.
      repeat (case_match; cbn [fst errors]; try done).
    + unfold resolve.
      repeat (case_match; cbn [fst errors]; try done).
    + by case_match.
Qed.

(** Until the child process exits, the promise is pending and no archive
    has been started. *)
Lemma run_pending job evs : forall st,
  Forall (fun ev => ev <> Exit) evs ->
  conversion st = Pending ->
  archiveFilePath st = None ->
  conversion (run rt job st evs) = Pending /\
  archiveFilePath (run rt job st evs) = None.
Proof.
  unfold run. induction evs as [|ev evs IH]; intros st HF Hp Ha; cbn [foldl].
  - done.
  - apply Forall_cons in HF as [Hev HF]. apply IH; [done| |].
    + destruct ev as [chunk| | | |ok|path];
        cbn [step fst conversion]; try done.
      * by rewrite Ha.
      * by case_match.
    + destruct ev as [chunk| | | |ok|path];
        cbn [step fst archiveFilePath]; try done.
      * by rewrite Ha.
      * by case_match.
Qed.

Lemma convert_first_state inputFile args options fs0 job st0 acts :
  convert rt inputFile args options fs0 = inr (job, st0, acts) ->
  st0 = first_state fs0.
Proof.
  unfold convert. destruct (JS.or _ _) as [| |path| |]; try done.
  by intros [= _ <- _].
Qed.

(** C1. When the child process exits: if standard-error bytes were
    captured during the run, the job is rejected with [ConversionFailed]
    carrying their concatenation decoded, whether the output file exists
    or not; otherwise, if the output file does not exist, it is rejected
    with [ConversionTimedOut], whose message contains the resolved
    timeout; otherwise it resolves (for html, when the archive stream
    closes).  A data event delivers at least one byte, as the streams of
    Node do. *)
Theorem convert_exit_checks inputFile args options fs0 job st0 acts evs :
  convert rt inputFile args options fs0 = inr (job, st0, acts) ->
  Forall (fun ev => ev <> Exit) evs ->
  Forall (fun chunk => chunk <> []) (stderr_chunks evs) ->
  let st := run rt job st0 evs in
  let captured := mjoin (stderr_chunks evs) in
  let st' := (step rt job st Exit).1 in
  (captured <> [] ->
     conversion st' = Rejected (Error (utf8 rt captured))) /\
  (captured = [] -> outputFile job ∉ fs st ->
     conversion st' =
       Rejected (ConversionTimedOut rt (resolve_timeout rt options))
     /\ exists before after,
          ConversionTimedOut rt (resolve_timeout rt options) =
          Error (before
                 +:+ to_string (NumberToString rt) (resolve_timeout rt options)
                 +:+ after)) /\
  (captured = [] -> outputFile job ∈ fs st ->
     if isHtml job then
       conversion st' = Pending /\
       conversion (step rt job st' ArchiveClose).1 =
         Resolved (outputDirPath job +:+ ".zip")
     else conversion st' = Resolved (outputFile job)).
Proof.
  intros Hc Hex Hne st captured st'.
  pose proof (convert_first_state _ _ _ _ _ _ _ Hc) as ->.
  apply convert_job in Hc as (Ht & _).
  destruct (run_pending job evs (first_state fs0) Hex eq_refl eq_refl)
    as [Hp _].
  pose proof (run_errors job evs (first_state fs0)) as He.
  cbn [errors app] in He. fold st in Hp, He.
  subst st' captured. cbn [step]. rewrite He. split_and!.
  - intros Hcap. destruct (stderr_chunks evs) as [|chunk chunks] eqn:E;
      [done|].
    cbn [length Nat.eqb negb]. unfold reject, ConversionFailed.
    by rewrite Hp.
  - intros Hcap Hout. rewrite (mjoin_nil_nonempty _ Hne Hcap).
    cbn [length Nat.eqb negb]. rewrite bool_decide_eq_false_2 by done.
    cbn [negb]. unfold reject. rewrite Hp, Ht. split; [done|].
    by eexists _, _.
  - intros Hcap Hout. rewrite (mjoin_nil_nonempty _ Hne Hcap).
    cbn [length Nat.eqb negb]. rewrite bool_decide_eq_true_2 by done.
    cbn [negb]. destruct (isHtml job).
    + cbn [fst step archiveFilePath conversion]. split; [done|].
      unfold resolve. cbn [conversion]. by rewrite Hp.
    + cbn [fst]. unfold resolve. by rewrite Hp.
Qed.

(** The timer is never cancelled: whenever it fires, the child process is
    killed. *)
Lemma timer_kills job st : (step rt job st TimerFired).2 = [Kill].
Proof. reflexivity. Qed.

(** The child process is killed when the timer fires, and at no other
    event. *)
Lemma step_kill job st ev :
  existsb Guard.is_kill (step rt job st ev).2 = Guard.is_timer ev.
Proof.
  destruct ev; cbn [step Guard.is_timer]; try reflexivity.
  - unfold reject, resolve, KillSoffice.killSoffice.
    repeat case_match; reflexivity.
  - by destruct (archiveFilePath st).
  - by destruct (removing st).
Qed.

Lemma kills_timers job trace st :
  Guard.kills rt job st trace =
  (filter (fun te => Guard.is_timer te.2 = true) trace).*1.
Proof.
  revert st. induction trace as [|[t ev] trace IH]; intros st; [done|].
  cbn [Guard.kills]. rewrite IH, filter_cons, step_kill. cbn [snd].
  destruct (Guard.is_timer ev); case_decide; done.
Qed.

(** Which numbers are positive: positive infinity and the finite numbers
    of positive sign, fractions included. *)
Lemma number_gt0_spec (n : number) :
  number_gt0 n = true <->
  n = Infinity \/ exists m e, n = SpecFloat.S754_finite false m e.
Proof.
  split.
  - destruct n as [s|[|]| |[|] m e]; try discriminate; intros _.
    + by left.
    + right. by eexists _, _.
  - by intros [->|(m & e & ->)].
Qed.

(** C8, as amended.  The effective timeout is [options.timeout] itself
    whenever the comparison [options.timeout > 0] holds, which it does for
    every positive number, fractions and infinity included, and is 600
    otherwise, in particular for an absent one, for [NaN], for a zero and
    for a negative number.  One timer is set, with a delay of that value
    times 1000; for the default the timer is due after 600000
    milliseconds.  The child process is killed whenever the timer fires,
    whatever the state of the job, and at no other event: with a timer
    that Node does not fire before it is due, at no time before
    [Guard.due], which is the delay cut down to whole milliseconds when
    it lies between 1 and 2^31 - 1, and 1 otherwise. *)
Theorem convert_timeout_guard inputFile args options fs0 job st0 acts :
  convert rt inputFile args options fs0 = inr (job, st0, acts) ->
  let given := get options "timeout" in
  timeout job =
    (if number_gt0 (to_number (StringToNumber rt) given)
     then given else Number (Num 600)) /\
  (forall n, number_gt0 n = true <->
     n = Infinity \/ exists m e, n = SpecFloat.S754_finite false m e) /\
  (forall n, given = Number n -> number_gt0 n = true ->
     timeout job = Number n /\
     Guard.delay rt (timeout job) = number_mul n 1000 /\
     Guard.due rt job = timer_delay (number_mul n 1000)) /\
  (given = Undefined \/
   (exists n, given = Number n /\ number_gt0 n = false) ->
     timeout job = Number (Num 600) /\
     Guard.delay rt (timeout job) = Num 600000 /\
     Guard.due rt job = 600000%Z) /\
  filter (fun a => match a with SetTimeout _ => true | _ => false end = true)
         acts = [SetTimeout (Guard.delay rt (timeout job))] /\
  Guard.due rt job =
    (let ms := Guard.delay rt (timeout job) in
     if SpecFloat.SFleb (Num 1) ms && SpecFloat.SFleb ms (Num 2147483647)
     then trunc ms else 1%Z) /\
  (forall evs, (step rt job (run rt job st0 evs) TimerFired).2 = [Kill]) /\
  (forall trace,
     Guard.kills rt job st0 trace =
     (filter (fun te => Guard.is_timer te.2 = true) trace).*1) /\
  (forall trace,
     Guard.on_time rt job trace ->
     Forall (fun t => (Guard.due rt job <= t)%Z)
            (Guard.kills rt job st0 trace)).
Proof.
  intros Hc given. apply convert_job in Hc as (Ht & _ & _ & ->).
  assert (Hdef : get options "timeout" = Undefined \/
                 (exists n, get options "timeout" = Number n /\
                            number_gt0 n = false) ->
                 timeout job = Number (Num 600)).
  { intros Hcase. rewrite Ht. unfold resolve_timeout.
    destruct Hcase as [->|(n & -> & Hn)]; [reflexivity|].
    cbn [to_number]. by rewrite Hn. }
  split; [exact Ht|]. split; [exact number_gt0_spec|].
  split; [|split; [|split; [|split; [|split; [|split]]]]].
  - intros n Hn Hpos.
    assert (timeout job = Number n) as Hjob.
    { rewrite Ht. unfold resolve_timeout. fold given. rewrite Hn.
      cbn [to_number]. by rewrite Hpos. }
    unfold Guard.due. rewrite Hjob. by split.
  - intros Hcase.
    assert (timeout job = Number (Num 600)) as Hjob.
    { by apply Hdef. }
    unfold Guard.due. rewrite Hjob. split; [reflexivity|].
    split; vm_compute; reflexivity.
  - rewrite filter_cons. case_decide; [done|].
    rewrite filter_cons. case_decide; [|done]. reflexivity.
  - reflexivity.
  - reflexivity.
  - intros trace. apply kills_timers.
  - intros trace Hon. rewrite kills_timers.
    induction Hon as [|[t ev] trace Hte _ IH]; [constructor|].
    rewrite filter_cons. cbn [snd] in *. case_decide; [|exact IH].
    cbn [fmap list_fmap fst]. constructor; [by apply Hte|exact IH].
Qed.


End ConvertFacts.

(** ** The streaming runner *)

Section StreamFacts.

Import ConvertToStream.

(** No handler ever changes [errors]. *)
Lemma stream_step_errors st ev st' :
  step st ev = inr st' -> errors st' = errors st.
Proof.
  destruct ev as [chunk|data|code]; cbn [step]; [by intros [= <-]|done|].
  case_bool_decide; [by intros [= <-]|done].
Qed.

Lemma stream_run_errors evs : forall st st',
  run st evs = inr st' -> errors st' = errors st.
Proof.
  induction evs as [|ev evs IH]; intros st st'; cbn [run]; [by intros [= <-]|].
  destruct (step st ev) as [e|st1] eqn:E; [done|]. intros Hr.
  rewrite (IH _ _ Hr). by eapply stream_step_errors.
Qed.

(** A run in which the converter writes to standard error ends with the
    [TypeError] of the assignment, unless an earlier handler threw. *)
Lemma run_stderr_throws evs1 data evs2 st st1 :
  run st evs1 = inr st1 ->
  run st (evs1 ++ StderrData data :: evs2) =
    inl (TypeError "Assignment to constant variable.").
Proof.
  revert st. induction evs1 as [|ev evs1 IH]; intros st; cbn [run app].
  - done.
  - destruct (step st ev) as [e|st'] eqn:E; [done|]. apply IH.
Qed.

(** With [errors] empty, the exit handler emits an error on the stream
    exactly when the exit code is positive, and the payload is empty. *)
Lemma exit_emits st code :
  errors st = "" ->
  inputFile st ∈ fs st ->
  exists st', step st (Exit code) = inr st' /\
    (inputFile st ∉ fs st') /\
    emitted st' =
      (if code_gt0 code then emitted st ++ [ErrorEvent ""] else emitted st).
Proof.
  intros He Hin. cbn [step]. rewrite bool_decide_eq_true_2 by done.
  eexists. split; [reflexivity|]. cbn [fs emitted inputFile]. rewrite He.
  split; [|cbn; by rewrite orb_false_r].
  intros Hd. apply elem_of_difference in Hd as [_ Hd].
  apply Hd. by apply elem_of_singleton.
Qed.

(** C2, the code at the failing input: the converter writes [boom] to
    standard error and exits with code 1, or with code 0.  The handler of
    the standard-error data throws; were the run to go on past it, the
    exit handler would emit an error with an empty payload for code 1 and
    nothing for code 0. *)
Theorem convertToStream_stderr_lost :
  let st0 := (convertToStream "/tmp/upload.docx" []
                {[ "format" := Str "pdf" ]} {[ "/tmp/upload.docx" ]}).1 in
  step st0 (StderrData "boom") =
    inl (TypeError "Assignment to constant variable.") /\
  run st0 [StderrData "boom"; Exit (Some 1%Z)] =
    inl (TypeError "Assignment to constant variable.") /\
  (exists st1, step st0 (Exit (Some 1%Z)) = inr st1 /\
     emitted st1 = [ErrorEvent ""] /\ fs st1 = ∅) /\
  (exists st1, step st0 (Exit (Some 0%Z)) = inr st1 /\
     emitted st1 = [] /\ fs st1 = ∅).
Proof.
  cbn zeta. split_and!; [reflexivity|reflexivity| |].
  - eexists. split; [vm_compute; reflexivity|]. split; reflexivity.
  - eexists. split; [vm_compute; reflexivity|]. split; reflexivity.
Qed.

End StreamFacts.

(** ** The process reaper *)

(** C9. When [ps.lookup] or [ps.kill] reports a failure to its callback,
    the callback throws an error made from it: nothing is killed or
    logged, and the failure is not swallowed. *)
Theorem killSoffice_failures_throw (rt : Runtime) (err : value) :
  truthy err = true ->
  (forall resultList,
     KillSoffice.lookup_callback rt err resultList =
       inl (Error (to_string (NumberToString rt) err))) /\
  KillSoffice.kill_callback rt err =
    inl (Error (to_string (NumberToString rt) err)).
Proof.
  intros He. unfold KillSoffice.lookup_callback, KillSoffice.kill_callback.
  by rewrite He.
Qed.

(** ** The help-text parser at a flag without value *)

(** C7, the code at the failing input: a help line that describes a flag
    without the [=value] marker yields no descriptor, where a line with the
    marker yields one. *)
Theorem parseHelpInfo_flag_without_value :
  let line :=
    "  -l, --listener           start a permanent listener to use by unoconv clients" in
  Regex.exec regexCommandHelp line = None /\
  catalog_options (parseHelpInfo line) = [] /\
  catalog_options
    (parseHelpInfo "  -f, --format=format      specify the output format") =
    [ {| Opt.short := Some "f"; Opt.option := "format";
         Opt.hasValue := true; Opt.isPublic := true |} ].
Proof. cbn zeta. split_and!; vm_compute; reflexivity. Qed.

(** * The properties at concrete inputs *)

Section Instances.

Import Convert.

(** C5 at [bogus/1]: the first segment is no option of the catalog. *)
Lemma parseUrlCommand_invalid_option_bogus :
  parseUrlCommand Sample.catalog "bogus/1" =
    inl (Error "invalid option 'bogus'").
Proof.
  apply (parseUrlCommand_invalid_option Sample.catalog "bogus/1"
           [] "bogus" ["1"]); [reflexivity | reflexivity | done | reflexivity].
Defined.

(** C5 as stated fails on an empty segment: in option position it matches
    no option, yet parsing succeeds, and what follows the empty segment is
    never looked at. *)
Lemma parseUrlCommand_empty_segment_accepted :
  split "/" "format/pdf//bogus/1" = ["format"; "pdf"] ++ "" :: ["bogus"; "1"] /\
  complete Sample.catalog ["format"; "pdf"] = true /\
  find_option Sample.catalog "" = None /\
  parseUrlCommand Sample.catalog "format/pdf//bogus/1" =
    inr {| args := [Str "--format"; Str "pdf"];
           options := {[ "format" := Str "pdf" ]} |} /\
  parseUrlCommand Sample.catalog "format/pdf/" =
    inr {| args := [Str "--format"; Str "pdf"];
           options := {[ "format" := Str "pdf" ]} |}.
Proof. split_and!; vm_compute; reflexivity. Qed.

(** C4 at [output/a/format/txt]. *)
Lemma parseUrlCommand_format_value_txt :
  (exists front back,
     [Str "--output"; Str "a"; Str "--format"; Str "text"] =
       front ++ [Str "--format"; Str "text"] ++ back) /\
  ("format" ∉ supplied Sample.catalog [] ->
   ({[ "format" := Str "txt"; "output" := Str "a" ]} : gmap string value)
     !! "format" = Some (Str "txt")).
Proof.
  refine (parseUrlCommand_format_value Sample.catalog "output/a/format/txt"
            ["output"; "a"] "txt" []
            {| Opt.short := Some "f"; Opt.option := "format";
               Opt.hasValue := true; Opt.isPublic := true |}
            {| args := [Str "--output"; Str "a"; Str "--format"; Str "text"];
               options := {[ "format" := Str "txt"; "output" := Str "a" ]} |}
            _ _ _ _ _ _);
    vm_compute; reflexivity.
Defined.

(** C4 as stated fails: a later [format] option overrides [txt] in the
    options map, and an empty [format] value is emitted as it is while the
    map gets ['pdf']. *)
Lemma parseUrlCommand_format_txt_overridden :
  parseUrlCommand Sample.catalog "format/txt/format/pdf" =
    inr {| args := [Str "--format"; Str "text"; Str "--format"; Str "pdf"];
           options := {[ "format" := Str "pdf" ]} |} /\
  parseUrlCommand Sample.catalog "format/" =
    inr {| args := [Str "--format"; Str ""];
           options := {[ "format" := Str "pdf" ]} |}.
Proof. split; vm_compute; reflexivity. Qed.

(** C6 at [output/result]: no format is supplied. *)
Lemma parseUrlCommand_default_format_output :
  options {| args := [Str "--output"; Str "result"];
             options := {[ "format" := Str "pdf"; "output" := Str "result" ]} |}
    !! "format" = Some (Str "pdf").
Proof.
  apply (proj2 (parseUrlCommand_default_format Sample.catalog)
           "output/result").
  - vm_compute; reflexivity.
  - apply (bool_decide_unpack _). vm_compute. exact I.
Defined.

(** C10 at [format/pdf/output]: the value of [output] is missing. *)
Lemma parseUrlCommand_trailing_output :
  exists cmd,
    parseUrlCommand Sample.catalog "format/pdf/output" = inr cmd /\
    (exists front, args cmd = front ++ [Str "--output"; Undefined]) /\
    options cmd !! "output" = Some Undefined.
Proof.
  apply (parseUrlCommand_trailing_value_option Sample.catalog
           "format/pdf/output" ["format"; "pdf"] "output"
           {| Opt.short := Some "o"; Opt.option := "output";
              Opt.hasValue := true; Opt.isPublic := true |});
    [reflexivity | reflexivity | done | reflexivity | reflexivity].
Defined.

(** C1 when the converter wrote [E] to standard error before it exited. *)
Lemma convert_exit_checks_stderr :
  conversion
    (step Sample.runtime Sample.pdf_job
       (run Sample.runtime Sample.pdf_job (first_state ∅)
            [StderrData ["E"%byte]]) Exit).1
  = Rejected (Error "E").
Proof.
  refine (proj1 (convert_exit_checks Sample.runtime "/data/report.docx" []
                   {[ "format" := Str "pdf" ]} ∅ Sample.pdf_job
                   (first_state ∅)
                   [ Spawn "unoconv"
                       [Str "--output"; Str "/tmp/report.pdf";
                        Str "/data/report.docx"];
                     SetTimeout (Num 600000) ]
                   [StderrData ["E"%byte]] _ _ _) _).
  - vm_compute; reflexivity.
  - repeat constructor. discriminate.
  - repeat constructor. discriminate.
  - discriminate.
Defined.

(** C8 at a timeout of half a second, given as a number: the timer is set
    with a delay of 500, and is due after 500 milliseconds. *)
Lemma convert_timeout_guard_half :
  (timeout Sample.timed_job = Number Sample.half /\
   Guard.delay Sample.runtime (timeout Sample.timed_job) = Num 500 /\
   Guard.due Sample.runtime Sample.timed_job = 500%Z) /\
  double Sample.half = true.
Proof.
  split; [|vm_compute; reflexivity].
  refine (proj1 (proj2 (proj2 (convert_timeout_guard Sample.runtime
            "/data/report.docx" []
            (<[ "timeout" := Number Sample.half ]>
               {[ "format" := Str "pdf" ]}) ∅
            Sample.timed_job (first_state ∅)
            [ Spawn "unoconv"
                [Str "--output"; Str "/tmp/report.pdf";
                 Str "/data/report.docx"];
              SetTimeout (Num 500) ] _))) Sample.half _ _).
  - vm_compute; reflexivity.
  - vm_compute; reflexivity.
  - vm_compute; reflexivity.
Defined.

(** C8 as stated fails when [options.timeout] is [true], or the string
    ['30'] that [timeout/30] parses to: neither is a number, and the
    effective timeout is that value, not 600.  It fails as well for a
    positive number of seconds whose thousandfold exceeds 2^31 - 1, such
    as 3000000: the timer is then due after one millisecond.  The string
    ['0.5'] that [timeout/0.5] parses to gives a timer of 500
    milliseconds. *)
Lemma convert_timeout_not_a_number :
  convert Sample.runtime "/data/report.docx" []
    (<[ "timeout" := Bool true ]> {[ "format" := Str "pdf" ]}) ∅ =
    inr ({| inputFile := "/data/report.docx"; isHtml := false;
            outputDirPath := "/tmp"; outputFile := "/tmp/report.pdf";
            timeout := Bool true |},
         first_state ∅,
         [ Spawn "unoconv"
             [Str "--output"; Str "/tmp/report.pdf"; Str "/data/report.docx"];
           SetTimeout (Num 1000) ]) /\
  (exists cmd,
    parseUrlCommand Sample.catalog "timeout/30" = inr cmd /\
    get (options cmd) "timeout" = Str "30" /\
    convert Sample.runtime "/data/report.docx" (args cmd) (options cmd) ∅ =
      inr ({| inputFile := "/data/report.docx"; isHtml := false;
              outputDirPath := "/tmp"; outputFile := "/tmp/report.pdf";
              timeout := Str "30" |},
           first_state ∅,
           [ Spawn "unoconv"
               [Str "--timeout"; Str "30"; Str "--output";
                Str "/tmp/report.pdf"; Str "/data/report.docx"];
             SetTimeout (Num 30000) ])) /\
  (exists job st0,
    convert Sample.runtime "/data/report.docx" []
      (<[ "timeout" := Number (Num 3000000) ]> {[ "format" := Str "pdf" ]})
      ∅ =
      inr (job, st0,
           [ Spawn "unoconv"
               [Str "--output"; Str "/tmp/report.pdf";
                Str "/data/report.docx"];
             SetTimeout (Num 3000000000) ]) /\
    number_gt0 (Num 3000000) = true /\
    timeout job = Number (Num 3000000) /\
    Guard.due Sample.runtime job = 1%Z /\
    Guard.kills Sample.runtime job st0 [(1%Z, TimerFired)] = [1%Z]) /\
  (exists cmd job st0,
    parseUrlCommand Sample.catalog "timeout/0.5" = inr cmd /\
    convert Sample.runtime "/data/report.docx" (args cmd) (options cmd) ∅ =
      inr (job, st0,
           [ Spawn "unoconv"
               [Str "--timeout"; Str "0.5"; Str "--output";
                Str "/tmp/report.pdf"; Str "/data/report.docx"];
             SetTimeout (Num 500) ]) /\
    timeout job = Str "0.5" /\
    Guard.due Sample.runtime job = 500%Z /\
    ConversionTimedOut Sample.runtime (timeout job) =
      Error "No result from conversion (probably timed out after 0.5s)").
Proof.
  split; [vm_compute; reflexivity|].
  split.
  { eexists. split; [vm_compute; reflexivity|].
    split; vm_compute; reflexivity. }
  split.
  - eexists _, _. split; [vm_compute; reflexivity|].
    repeat split; vm_compute; reflexivity.
  - eexists _, _, _. split; [vm_compute; reflexivity|].
    split; [vm_compute; reflexivity|].
    repeat split; vm_compute; reflexivity.
Qed.



(** C9 when [ps] wrote to its standard error. *)
Lemma killSoffice_failures_throw_ps :
  (forall resultList,
     KillSoffice.lookup_callback Sample.runtime (Str "ps: failed")
       resultList = inl (Error "ps: failed")) /\
  KillSoffice.kill_callback Sample.runtime (Str "ps: failed") =
    inl (Error "ps: failed").
Proof.
  apply (killSoffice_failures_throw Sample.runtime (Str "ps: failed")).
  reflexivity.
Defined.

End Instances.

(** * Further properties *)

(** ** The shape of a parsed command *)

Section ParsedCommand.

Import Parsing.

Variable catalog : list OptionDef.

Lemma supplied_consumed tokens :
  supplied catalog tokens = Opt.option <$> consumed_options catalog tokens.
Proof.
  induction tokens as [|name|name v l IHl IHvl] using list_pair_ind;
    cbn [supplied consumed_options]; [done| |].
  - destruct (String.eqb name ""); [done|].
    destruct (find_option catalog name) as [define|]; [|done].
    by destruct (Opt.hasValue define).
  - destruct (String.eqb name ""); [done|].
    destruct (find_option catalog name) as [define|]; [|done].
    destruct (Opt.hasValue define); cbn [fmap list_fmap]; by f_equal.
Qed.

(** The loop writes exactly the long names it consumes. *)
Lemma parse_loop_dom tokens : forall a o a' o',
  parse_loop catalog tokens a o = inr (a', o') ->
  dom o' = dom o ∪ list_to_set (supplied catalog tokens).
Proof.
  assert (Hnil : forall o : gmap string value,
            dom o = dom o ∪ list_to_set []).
  { intros o. by rewrite list_to_set_nil, (right_id_L ∅ (∪)). }
  assert (Hcons : forall (o : gmap string value) k v (X : gset string),
            dom (<[k := v]> o) ∪ X = dom o ∪ ({[ k ]} ∪ X)).
  { intros o k v X.
    by rewrite dom_insert_L, (comm_L (∪) {[ k ]}), (assoc_L (∪)). }
  induction tokens as [|name|name v l IHl IHvl] using list_pair_ind;
    intros a o a' o'; cbn [parse_loop supplied].
  - by intros [= <- <-].
  - destruct (String.eqb name ""); [by intros [= <- <-]|].
    destruct (find_option catalog name) as [define|]; [|done].
    destruct (Opt.hasValue define); intros [= <- <-];
      by rewrite <- (right_id_L ∅ (∪) (dom (<[_ := _]> o))), Hcons,
           list_to_set_cons, list_to_set_nil.
  - destruct (String.eqb name ""); [by intros [= <- <-]|].
    destruct (find_option catalog name) as [define|]; [|done].
    destruct (Opt.hasValue define); intros Hp.
    + apply IHl in Hp. by rewrite Hp, list_to_set_cons, Hcons.
    + apply IHvl in Hp. by rewrite Hp, list_to_set_cons, Hcons.
Qed.

(** Each consumed option adds its flag, and one more argument when it
    takes a value. *)
Lemma parse_loop_length tokens : forall a o a' o',
  parse_loop catalog tokens a o = inr (a', o') ->
  length a' = length a + sum_list (arity <$> consumed_options catalog tokens).
Proof.
  induction tokens as [|name|name v l IHl IHvl] using list_pair_ind;
    intros a o a' o'; cbn [parse_loop consumed_options].
  - intros [= <- <-]. cbn. lia.
  - destruct (String.eqb name ""); [intros [= <- <-]; cbn; lia|].
    destruct (find_option catalog name) as [define|]; [|done].
    unfold arity at 1.
    destruct (Opt.hasValue define) eqn:E; intros [= <- <-];
      rewrite ?length_app; cbn; unfold arity; rewrite E; cbn; lia.
  - destruct (String.eqb name ""); [intros [= <- <-]; cbn; lia|].
    destruct (find_option catalog name) as [define|]; [|done].
    destruct (Opt.hasValue define) eqn:E; intros Hp.
    + apply IHl in Hp. rewrite Hp, !length_app. cbn.
      unfold arity at 2. rewrite E. lia.
    + apply IHvl in Hp. rewrite Hp, !length_app. cbn.
      unfold arity at 2. rewrite E. lia.
Qed.

(** Every argument is a string, but for the last one, which is
    [undefined] when the value of the last option is missing. *)
Lemma parse_loop_strings tokens : forall a o a' o',
  parse_loop catalog tokens a o = inr (a', o') ->
  forallb is_string a = true ->
  forallb is_string a' = true \/
  exists front, a' = front ++ [Undefined] /\ forallb is_string front = true.
Proof.
  assert (Hv : forall long v, is_string (value_arg long (Str v)) = true).
  { intros long v. unfold value_arg. by destruct (_ && _). }
  induction tokens as [|name|name v l IHl IHvl] using list_pair_ind;
    intros a o a' o'; cbn [parse_loop].
  - intros [= <- <-] Ha. by left.
  - destruct (String.eqb name ""); [intros [= <- <-] Ha; by left|].
    destruct (find_option catalog name) as [define|]; [|done].
    destruct (Opt.hasValue define); intros [= <- <-] Ha.
    + right. rewrite value_arg_undefined. eexists. split; [done|].
      by rewrite forallb_app, Ha.
    + left. by rewrite forallb_app, Ha.
  - destruct (String.eqb name ""); [intros [= <- <-] Ha; by left|].
    destruct (find_option catalog name) as [define|]; [|done].
    destruct (Opt.hasValue define); intros Hp Ha.
    + apply IHl in Hp; [done|]. rewrite !forallb_app, Ha. cbn. by rewrite Hv.
    + apply IHvl in Hp; [done|]. by rewrite forallb_app, Ha.
Qed.

(** On a complete queue no value is missing. *)
Lemma parse_loop_complete_strings tokens : forall a o,
  complete catalog tokens = true ->
  forallb is_string a = true ->
  exists a' o',
    parse_loop catalog tokens a o = inr (a', o') /\
    forallb is_string a' = true.
Proof.
  assert (Hv : forall long v, is_string (value_arg long (Str v)) = true).
  { intros long v. unfold value_arg. by destruct (_ && _). }
  induction tokens as [|name|name v l IHl IHvl] using list_pair_ind;
    intros a o; cbn [complete parse_loop].
  - intros _ Ha. by eexists _, _.
  - destruct (String.eqb name ""); [done|]. cbn [negb andb].
    destruct (find_option catalog name) as [define|]; [|done].
    destruct (Opt.hasValue define); [done|]. intros _ Ha.
    eexists _, _. split; [done|]. by rewrite forallb_app, Ha.
  - destruct (String.eqb name ""); [done|]. cbn [negb andb].
    destruct (find_option catalog name) as [define|]; [|done].
    destruct (Opt.hasValue define); intros Hc Ha.
    + apply IHl; [done|]. rewrite !forallb_app, Ha. cbn. by rewrite Hv.
    + apply IHvl; [done|]. by rewrite forallb_app, Ha.
Qed.

(** A failure of the loop names a non-empty token that the catalog does
    not know. *)
Lemma parse_loop_failure tokens : forall a o e,
  parse_loop catalog tokens a o = inl e ->
  exists name,
    name ∈ tokens /\ name <> "" /\ find_option catalog name = None /\
    e = Error ("invalid option '" +:+ name +:+ "'").
Proof.
  induction tokens as [|name|name v l IHl IHvl] using list_pair_ind;
    intros a o e; cbn [parse_loop]; [done| |].
  - destruct (String.eqb name "") eqn:En; [done|].
    apply String.eqb_neq in En.
    destruct (find_option catalog name) as [define|] eqn:Ef.
    + by destruct (Opt.hasValue define).
    + intros [= <-]. exists name. split_and!; try done. by left.
  - destruct (String.eqb name "") eqn:En; [done|].
    apply String.eqb_neq in En.
    destruct (find_option catalog name) as [define|] eqn:Ef.
    + destruct (Opt.hasValue define); intros Hp.
      * apply IHl in Hp as (n & Hin & ?). exists n.
        split; [by do 2 right|done].
      * apply IHvl in Hp as (n & Hin & ?). exists n.
        split; [by right|done].
    + intros [= <-]. exists name. split_and!; try done. by left.
Qed.

End ParsedCommand.

(** X1. Every failure of [parseUrlCommand] is the invalid-option error,
    and the segment it names is a non-empty segment of the command that
    matches no long or short name of the catalog. *)
Theorem parseUrlCommand_failure_names_segment
    (catalog : list OptionDef) (commands : string) (e : error) :
  parseUrlCommand catalog commands = inl e ->
  exists name,
    name ∈ split "/" commands /\ name <> "" /\
    find_option catalog name = None /\
    e = Error ("invalid option '" +:+ name +:+ "'").
Proof.
  unfold parseUrlCommand.
  destruct (parse_loop catalog (split "/" commands) [] ∅) as [e'|[a o]] eqn:E;
    [|done].
  intros [= <-]. by eapply parse_loop_failure.
Qed.

(** X2. In a parsed command [options.format] is always present and truthy,
    and the keys of the options map are [format] and the long names of
    the options the command supplies, no other. *)
Theorem parseUrlCommand_options_keys
    (catalog : list OptionDef) (commands : string) (cmd : Command) :
  parseUrlCommand catalog commands = inr cmd ->
  truthy (get (options cmd) "format") = true /\
  dom (options cmd) =
    {[ "format" ]} ∪ list_to_set (supplied catalog (split "/" commands)).
Proof.
  unfold parseUrlCommand.
  destruct (parse_loop catalog (split "/" commands) [] ∅) as [e|[a o]] eqn:E;
    [done|].
  intros [= <-]. cbn [options]. apply parse_loop_dom in E.
  rewrite dom_empty_L, (left_id_L ∅ (∪)) in E. split.
  - unfold get at 1. rewrite default_format_lookup. simpl.
    by destruct (truthy (get o "format")) eqn:Et.
  - unfold default_format. destruct (truthy (get o "format")) eqn:Et.
    + rewrite <- E. symmetry. apply subseteq_union_1_L.
      apply singleton_subseteq_l, elem_of_dom. unfold get in Et.
      destruct (o !! "format"); [done|discriminate].
    + rewrite dom_insert_L, E. done.
Qed.

(** X3. The number of arguments of a parsed command is the number of
    options it supplies plus the number of those that take a value: each
    option gives its flag, and a value argument when it takes one. *)
Theorem parseUrlCommand_args_length
    (catalog : list OptionDef) (commands : string) (cmd : Command) :
  parseUrlCommand catalog commands = inr cmd ->
  let consumed := Parsing.consumed_options catalog (split "/" commands) in
  length (args cmd) =
    length consumed + length (filter (fun d => Opt.hasValue d = true) consumed).
Proof.
  unfold parseUrlCommand.
  destruct (parse_loop catalog (split "/" commands) [] ∅) as [e|[a o]] eqn:E;
    [done|].
  intros [= <-]. cbn zeta. cbn [args]. apply parse_loop_length in E.
  rewrite E. cbn [length].
  generalize (Parsing.consumed_options catalog (split "/" commands)).
  clear. intros consumed.
  induction consumed as [|d ds IH]; [done|].
  rewrite filter_cons, fmap_cons. cbn in IH |- *.
  unfold Parsing.arity at 1.
  destruct (Opt.hasValue d); case_decide; try done; cbn [length]; lia.
Qed.

(** X4. Every argument of a parsed command is a string, except that the
    last one is [undefined] when the value of the last option is missing;
    when the command is made of complete groups, parsing succeeds and all
    the arguments are strings. *)
Theorem parseUrlCommand_args_strings
    (catalog : list OptionDef) (commands : string) :
  (forall cmd, parseUrlCommand catalog commands = inr cmd ->
     forallb Parsing.is_string (args cmd) = true \/
     exists front,
       args cmd = front ++ [Undefined] /\
       forallb Parsing.is_string front = true) /\
  (complete catalog (split "/" commands) = true ->
     exists cmd, parseUrlCommand catalog commands = inr cmd /\
       forallb Parsing.is_string (args cmd) = true).
Proof.
  unfold parseUrlCommand. split.
  - intros cmd.
    destruct (parse_loop catalog (split "/" commands) [] ∅) as [e|[a o]] eqn:E;
      [done|].
    intros [= <-]. cbn [args]. by eapply parse_loop_strings.
  - intros Hc.
    destruct (parse_loop_complete_strings catalog _ [] ∅ Hc eq_refl)
      as (a & o & -> & Ha).
    by eexists.
Qed.

(** X5. What follows an empty segment in option position has no influence:
    the command parses, with string arguments only, to the same result as
    the command cut before that segment, whatever the segments after it. *)
Theorem parseUrlCommand_ignores_rest_after_empty_segment
    (catalog : list OptionDef) (commands : string)
    (pre rest : list string) :
  split "/" commands = pre ++ "" :: rest ->
  complete catalog pre = true ->
  exists cmd,
    parseUrlCommand catalog commands = inr cmd /\
    forallb Parsing.is_string (args cmd) = true /\
    forall commands',
      split "/" commands' = pre \/
      (exists rest', split "/" commands' = pre ++ "" :: rest') ->
      parseUrlCommand catalog commands' = inr cmd.
Proof.
  intros Hs Hc. unfold parseUrlCommand. rewrite Hs.
  destruct (parse_loop_complete catalog pre [] ∅ Hc) as (a & o & _ & Hr).
  destruct (parse_loop_complete_strings catalog pre [] ∅ Hc eq_refl)
    as (a' & o' & Hp & Ha).
  pose proof (Hr []) as Hnil. rewrite app_nil_r, Hp in Hnil.
  cbn [parse_loop] in Hnil. injection Hnil as -> ->.
  rewrite Hr. cbn [parse_loop String.eqb].
  eexists. split; [done|]. split; [done|].
  intros commands' [->|[rest' ->]].
  - by rewrite Hp.
  - by rewrite Hr.
Qed.

(** ** The life of a conversion job *)

Section JobFacts.

Import Convert Running.

Variable rt : Runtime.

Lemma run_cons job st ev evs :
  run rt job st (ev :: evs) = run rt job (step rt job st ev).1 evs.
Proof. reflexivity. Qed.

Lemma run_app job evs1 evs2 : forall st,
  run rt job st (evs1 ++ evs2) = run rt job (run rt job st evs1) evs2.
Proof. intros st. unfold run. apply foldl_app. Qed.

(** A settled promise is left alone by every handler. *)
Lemma step_settled job st ev :
  conversion st <> Pending ->
  conversion (step rt job st ev).1 = conversion st.
Proof.
  intros Hs.
  destruct ev as [chunk| | | |ok|path]; cbn [step]; try done.
  - unfold reject, resolve.
    repeat (case_match; cbn [fst conversion]; try done).
  - unfold resolve.
    repeat (case_match; cbn [fst conversion]; try done).
  - by case_match.
Qed.

Lemma run_settled job evs : forall st,
  conversion st <> Pending ->
  conversion (run rt job st evs) = conversion st.
Proof.
  induction evs as [|ev evs IH]; intros st Hs; [done|].
  rewrite run_cons, IH; rewrite step_settled; done.
Qed.

Lemma reject_lookup st e :
  (if is_rejected (conversion st) then 1 else 0)
  + length (filter (fun a => is_lookup a = true) (reject st e).2)
  = if is_rejected (conversion (reject st e).1) then 1 else 0.
Proof.
  unfold reject. destruct (conversion st) eqn:Ec; cbn; rewrite ?Ec; cbn;
    first [lia | by case_decide].
Qed.

Lemma resolve_rejected st path :
  is_rejected (conversion (resolve st path)) = is_rejected (conversion st).
Proof.
  unfold resolve. destruct (conversion st) eqn:Ec; cbn; by rewrite ?Ec.
Qed.

(** Counts the calls of the reaper in an explicit list of requests. *)
Ltac count_lookups :=
  cbn; rewrite ?filter_cons, ?filter_nil;
  repeat case_decide; try discriminate; cbn; lia.

(** The reaper is called by the step that rejects, and by no other. *)
Lemma step_lookup job st ev :
  (if is_rejected (conversion st) then 1 else 0)
  + length (filter (fun a => is_lookup a = true) (step rt job st ev).2)
  = if is_rejected (conversion (step rt job st ev).1) then 1 else 0.
Proof.
  destruct ev as [chunk| | | |ok|path]; cbn [step];
    try count_lookups.
  - destruct (negb _); [apply reject_lookup|].
    destruct (negb _); [apply reject_lookup|].
    destruct (isHtml job); cbn [fst snd]; [count_lookups|].
    rewrite resolve_rejected. count_lookups.
  - destruct (archiveFilePath st); cbn [fst snd]; [|count_lookups].
    rewrite resolve_rejected. count_lookups.
  - destruct (removing st); count_lookups.
Qed.

Lemma run_lookup job evs : forall st,
  (if is_rejected (conversion st) then 1 else 0)
  + length (filter (fun a => is_lookup a = true) (requests rt job st evs))
  = if is_rejected (conversion (run rt job st evs)) then 1 else 0.
Proof.
  induction evs as [|ev evs IH]; intros st; cbn [requests].
  - cbn. lia.
  - rewrite run_cons, <- IH, filter_app, length_app, <- step_lookup. lia.
Qed.

Lemma step_invariant job st ev :
  job_invariant rt job st -> job_invariant rt job (step rt job st ev).1.
Proof.
  intros (Ha & Hr & Hc). unfold job_invariant.
  destruct ev as [chunk| | | |ok|path]; cbn [step]; try done.
  - assert (Hrej : forall e,
              (e = ConversionTimedOut rt (timeout job) \/
               exists chunks, chunks <> [] /\ e = ConversionFailed rt chunks) ->
              job_invariant rt job (reject st e).1).
    { intros e He. unfold reject, job_invariant.
      destruct (conversion st) eqn:Ec;
        cbn [fst archiveFilePath removing conversion]; rewrite ?Ec; done. }
    destruct (errors st) as [|chunk chunks] eqn:E; cbn [length Nat.eqb negb].
    + case_bool_decide; cbn [negb]; [|apply Hrej; by left].
      destruct (isHtml job) eqn:Eh; cbn [fst].
      * cbn [archiveFilePath removing conversion].
        split_and!; [by right|done|done].
      * unfold resolve. destruct (conversion st) eqn:Ec;
          cbn [archiveFilePath removing conversion]; rewrite ?Ec;
          simpl in Hc; done.
    + apply Hrej. right. exists (chunk :: chunks).
      split; [discriminate|reflexivity].
  - destruct (archiveFilePath st) as [archive|] eqn:Ea; cbn [fst];
      [|rewrite ?Ea; exact (conj Ha (conj Hr Hc))].
    destruct Ha as [Ha|[Hh Ha]]; [done|]. injection Ha as ->.
    unfold resolve. cbn [conversion].
    rewrite Hh in Hc |- *.
    destruct (conversion st) eqn:Ec;
      cbn [archiveFilePath removing conversion]; rewrite ?Ec;
      (split_and!; [by right|by right|done]).
  - destruct (removing st) eqn:Er; cbn [fst];
      [|rewrite ?Er; exact (conj Ha (conj Hr Hc))].
    cbn [archiveFilePath removing conversion].
    split_and!; [done|by left|done].
Qed.

Lemma run_invariant job evs : forall st,
  job_invariant rt job st -> job_invariant rt job (run rt job st evs).
Proof.
  induction evs as [|ev evs IH]; intros st Hi; [done|].
  rewrite run_cons. by apply IH, step_invariant.
Qed.

Lemma first_state_invariant job fs0 : job_invariant rt job (first_state fs0).
Proof. split_and!; [by left|by left|done]. Qed.

End JobFacts.

Section JobTheorems.

Import Convert Running.

Variable rt : Runtime.

Lemma requests_before_exit job evs : forall st,
  Forall (fun ev => ev <> Exit) evs ->
  archiveFilePath st = None ->
  Forall (fun a => a = Kill) (requests rt job st evs).
Proof.
  induction evs as [|ev evs IH]; intros st HF Ha; cbn [requests];
    [constructor|].
  apply Forall_cons in HF as [Hev HF]. apply Forall_app. split.
  - destruct ev as [chunk| | | |ok|path]; cbn [step snd]; try done.
    + by repeat constructor.
    + rewrite Ha. constructor.
    + destruct (removing st); constructor.
  - apply IH; [done|].
    destruct ev as [chunk| | | |ok|path]; cbn [step fst archiveFilePath];
      try done.
    + by rewrite Ha.
    + by destruct (removing st).
Qed.

(** X6. Until the child process exits the job stays pending, whatever
    else happens: data on standard error, the timer firing, files coming
    into being; and all the job asks for meanwhile is to kill the child
    process when the timer fires.  The timeout by itself settles
    nothing. *)
Theorem convert_pending_until_exit
    inputFile args options fs0 job st0 acts evs :
  convert rt inputFile args options fs0 = inr (job, st0, acts) ->
  Forall (fun ev => ev <> Exit) evs ->
  conversion (run rt job st0 evs) = Pending /\
  Forall (fun a => a = Kill) (requests rt job st0 evs).
Proof.
  intros Hc Hex.
  pose proof (convert_first_state rt _ _ _ _ _ _ _ Hc) as ->.
  split.
  - by apply (run_pending rt job evs (first_state fs0)).
  - by apply requests_before_exit.
Qed.

(** X7. Whatever the events, a job resolves only with the path of its
    output file, or of the zip archive when the format is html, and it is
    rejected only with one of the two errors of the exit handler. *)
Theorem convert_outcomes inputFile args options fs0 job st0 acts evs :
  convert rt inputFile args options fs0 = inr (job, st0, acts) ->
  match conversion (run rt job st0 evs) with
  | Pending => True
  | Resolved path =>
      path = if isHtml job then outputDirPath job +:+ ".zip"
             else outputFile job
  | Rejected e =>
      e = ConversionTimedOut rt (resolve_timeout rt options) \/
      exists chunks, chunks <> [] /\ e = ConversionFailed rt chunks
  end.
Proof.
  intros Hc.
  pose proof (convert_first_state rt _ _ _ _ _ _ _ Hc) as ->.
  apply convert_job in Hc as (<- & _).
  apply (run_invariant rt job evs (first_state fs0)
           (first_state_invariant rt job fs0)).
Qed.

(** X8. Along any sequence of events, the process reaper is called once
    if the job has been rejected and not at all otherwise. *)
Theorem convert_reaper_on_rejection
    inputFile args options fs0 job st0 acts evs :
  convert rt inputFile args options fs0 = inr (job, st0, acts) ->
  length (filter (fun a => is_lookup a = true) (requests rt job st0 evs)) =
  if is_rejected (conversion (run rt job st0 evs)) then 1 else 0.
Proof.
  intros Hc.
  pose proof (convert_first_state rt _ _ _ _ _ _ _ Hc) as ->.
  by rewrite <- (run_lookup rt job evs (first_state fs0)).
Qed.

(** X9. A job settles once: after it has resolved or has been rejected,
    no later event changes the outcome. *)
Theorem convert_settles_once
    inputFile args options fs0 job st0 acts evs evs' :
  convert rt inputFile args options fs0 = inr (job, st0, acts) ->
  conversion (run rt job st0 evs) <> Pending ->
  conversion (run rt job st0 (evs ++ evs')) = conversion (run rt job st0 evs).
Proof.
  intros _ Hs. rewrite run_app. by apply run_settled.
Qed.

Lemma inside_child dir name : inside dir (dir +:+ "/" +:+ name) = true.
Proof.
  unfold inside. apply orb_true_iff. right.
  induction dir as [|a dir IH].
  - cbn. by destruct name.
  - rewrite !append_cons. cbn [String.prefix].
    by destruct (ascii_dec a a).
Qed.

Lemma inside_zip dir : inside dir (dir +:+ ".zip") = false.
Proof.
  unfold inside. apply orb_false_iff. split.
  - apply String.eqb_neq. intros Heq.
    apply (f_equal String.length) in Heq.
    rewrite length_append in Heq. cbn in Heq. lia.
  - induction dir as [|a dir IH]; [reflexivity|].
    rewrite !append_cons. cbn [String.prefix].
    by destruct (ascii_dec a a).
Qed.

Lemma convert_output_inside inputFile args options fs0 job st0 acts :
  convert rt inputFile args options fs0 = inr (job, st0, acts) ->
  inside (outputDirPath job) (outputFile job) = true.
Proof.
  unfold convert. destruct (JS.or _ _) as [| |path| |]; try done.
  intros [= <- _ _]. cbn [outputDirPath outputFile]. apply inside_child.
Qed.

(** X10. When the removal of the output directory of a job completes with
    success, the converter's output file is gone with the directory, while
    the zip archive written next to the directory, and every other path
    outside it, is still there. *)
Theorem convert_removal_spares_archive
    inputFile args options fs0 job st0 acts evs :
  convert rt inputFile args options fs0 = inr (job, st0, acts) ->
  let st := run rt job st0 evs in
  removing st <> None ->
  let st' := (step rt job st (RimrafDone true)).1 in
  (outputFile job ∉ fs st') /\
  (outputDirPath job +:+ ".zip" ∈ fs st ->
   outputDirPath job +:+ ".zip" ∈ fs st') /\
  (forall p, p ∈ fs st -> inside (outputDirPath job) p = false -> p ∈ fs st').
Proof.
  intros Hc st Hr st'.
  pose proof (convert_output_inside _ _ _ _ _ _ _ Hc) as Hin.
  pose proof (convert_first_state rt _ _ _ _ _ _ _ Hc) as ->.
  destruct (run_invariant rt job evs (first_state fs0)
              (first_state_invariant rt job fs0)) as (_ & Hrem & _).
  fold st in Hrem. destruct Hrem as [Hrem|Hrem]; [done|].
  subst st'. cbn [step]. rewrite Hrem. cbn [fst fs].
  unfold remove_tree. split_and!.
  - intros Hp. apply elem_of_filter in Hp as [Hp _]. congruence.
  - intros Hz. apply elem_of_filter. split; [apply inside_zip|done].
  - intros p Hp Hout. by apply elem_of_filter.
Qed.

End JobTheorems.

(** ** From a parsed command to a conversion *)

Section Composition.

Import Convert Parsing Running.

Lemma find_option_In catalog name define :
  find_option catalog name = Some define -> define ∈ catalog.
Proof.
  intros H. apply list_elem_of_In. by apply find_some in H as [? _].
Qed.

Lemma parse_loop_values catalog tokens : forall a o a' o',
  Forall (fun d => Opt.hasValue d = true) catalog ->
  parse_loop catalog tokens a o = inr (a', o') ->
  (forall k v, o !! k = Some v -> string_or_undefined v) ->
  forall k v, o' !! k = Some v -> string_or_undefined v.
Proof.
  intros a o a' o' Hcat. revert a o a' o'.
  assert (Hins : forall (o : gmap string value) long w,
            string_or_undefined w ->
            (forall k v, o !! k = Some v -> string_or_undefined v) ->
            forall k v, <[long := w]> o !! k = Some v ->
                        string_or_undefined v).
  { intros o long w Hw Ho k v. rewrite lookup_insert.
    case_decide; [by intros [= <-]|apply Ho]. }
  induction tokens as [|name|name v l IHl IHvl] using list_pair_ind;
    intros a o a' o'; cbn [parse_loop].
  - by intros [= <- <-].
  - destruct (String.eqb name ""); [by intros [= <- <-]|].
    destruct (find_option catalog name) as [define|] eqn:Ef; [|done].
    rewrite Forall_forall in Hcat.
    rewrite (Hcat define (find_option_In _ _ _ Ef)).
    intros [= <- <-] Ho. apply Hins; [by left|done].
  - destruct (String.eqb name ""); [by intros [= <- <-]|].
    destruct (find_option catalog name) as [define|] eqn:Ef; [|done].
    pose proof Hcat as Hcat'. rewrite Forall_forall in Hcat'.
    rewrite (Hcat' define (find_option_In _ _ _ Ef)).
    intros Hp Ho. eapply IHl; [exact Hp|].
    apply Hins; [right; by eexists|done].
Qed.

(** X11. When every option of the catalog takes a value, as in every
    catalog that [parseHelpInfo] builds, [convert] accepts the options of
    any parsed command: it does not throw, the format is a non-empty
    string that ends the name of the output file, and the converter is
    spawned with the parsed arguments followed by [--output], the output
    file and the input file. *)
Theorem convert_accepts_parsed_options
    (rt : Runtime) (catalog : list OptionDef) (commands : string)
    (cmd : Command) (inputFile : string) (fs0 : files) :
  Forall (fun d => Opt.hasValue d = true) catalog ->
  parseUrlCommand catalog commands = inr cmd ->
  exists job acts format stem,
    convert rt inputFile (args cmd) (options cmd) fs0 =
      inr (job, first_state fs0, acts) /\
    get (options cmd) "format" = Str format /\ format <> "" /\
    outputFile job = stem +:+ "." +:+ format /\
    Spawn "unoconv"
      (args cmd ++ [Str "--output"; Str (outputFile job); Str inputFile])
      ∈ acts.
Proof.
  intros Hcat. unfold parseUrlCommand.
  destruct (parse_loop catalog (split "/" commands) [] ∅) as [e|[a o]] eqn:E;
    [done|].
  intros [= <-]. cbn [args options].
  pose proof (parse_loop_values catalog _ _ _ _ _ Hcat E) as Hv.
  assert (Ho : forall k v, o !! k = Some v -> string_or_undefined v)
    by (apply Hv; intros k v; by rewrite lookup_empty).
  assert (Hd : forall k v, default_format o !! k = Some v ->
                           string_or_undefined v).
  { intros k v. unfold default_format.
    destruct (truthy (get o "format")); [apply Ho|].
    rewrite lookup_insert. case_decide; [|apply Ho].
    intros [= <-]. right. by eexists. }
  assert (Hf : exists format,
             get (default_format o) "format" = Str format /\ format <> "").
  { unfold get. rewrite default_format_lookup. simpl.
    destruct (truthy (get o "format")) eqn:Et; [|by exists "pdf"].
    unfold get in Et |- *. destruct (o !! "format") as [v|] eqn:El; [|done].
    destruct (Ho _ _ El) as [->|[s ->]]; [done|]. exists s.
    split; [done|]. simpl in Et. intros ->. done. }
  destruct Hf as (format & Hf & Hne).
  assert (Hout : exists path,
             JS.or (get (default_format o) "output") (Str inputFile)
             = Str path).
  { unfold JS.or, get.
    destruct (default_format o !! "output") as [v|] eqn:El; simpl;
      [|by eexists].
    destruct (Hd _ _ El) as [->|[s ->]]; simpl; [by eexists|].
    destruct (negb (String.eqb s "")); by eexists. }
  destruct Hout as (path & Hout).
  unfold convert. rewrite Hout, Hf. cbn [to_string].
  eexists _, _, format, _. split; [reflexivity|].
  cbn [outputFile]. split_and!; try done.
  - by rewrite <- !append_assoc.
  - by left.
Qed.

End Composition.

(** ** The output of the streaming runner *)

Section StreamOutput.

Import ConvertToStream Running.




End StreamOutput.

(** ** What the pattern of the help text captures *)

Section CaptureFacts.

Import Regex RegexLang.

Lemma star_sound p s : forall i c k x,
  star p i s c k = Some x ->
  exists t s',
    s = (t +:+ s') /\ all p t = true /\
    k (i + String.length t) s' c = Some x.
Proof.
  induction s as [|a s IH]; intros i c k x; cbn [star].
  - intros H. exists "", "". by rewrite Nat.add_0_r.
  - destruct (p a) eqn:Ep.
    + destruct (star p (S i) s c k) as [y|] eqn:E.
      * intros [= ->]. apply IH in E as (t & s' & -> & Ht & Hk).
        exists (String a t), s'. split; [done|]. cbn [all String.length].
        by rewrite Ep, Ht, Nat.add_succ_r.
      * intros H. exists "", (String a s). by rewrite Nat.add_0_r.
    + intros H. exists "", (String a s). by rewrite Nat.add_0_r.
Qed.

(** A successful match took a text that the pattern accepts, and every
    group it changed holds a text that the pattern of that group
    accepts. *)
Lemma rmatch_sound r : forall i s c k x,
  rmatch r i s c k = Some x ->
  exists t s' c',
    s = (t +:+ s') /\
    k (i + String.length t) s' c' = Some x /\
    accepts r t /\
    forall n,
      c' !! n = c !! n \/
      exists r1 u,
        (n, r1) ∈ group_patterns r /\ accepts r1 u /\
        c' !! n = Some (Some u).
Proof.
  induction r as [| |p|r1 IH1 r2 IH2|r1 IH1|p|m r1 IH1];
    intros i s c k x; cbn [rmatch].
  - destruct (Nat.eqb i 0); [|done]. intros H.
    exists "", s, c. rewrite Nat.add_0_r. split_and!; try done. by left.
  - destruct s; [|done]. intros H.
    exists "", "", c. rewrite Nat.add_0_r. split_and!; try done. by left.
  - destruct s as [|a s]; [done|]. destruct (p a) eqn:Ep; [|done]. intros H.
    exists (String a ""), s, c. cbn [String.length]. rewrite Nat.add_1_r.
    split_and!; try done; [by exists a|by left].
  - intros H. apply IH1 in H as (t1 & s1 & c1 & -> & H & Ha1 & Hg1).
    apply IH2 in H as (t2 & s2 & c2 & -> & H & Ha2 & Hg2).
    exists (t1 +:+ t2), s2, c2.
    rewrite length_append, Nat.add_assoc, append_assoc.
    split_and!; try done.
    + by exists t1, t2.
    + intros n. cbn [group_patterns].
      destruct (Hg2 n) as [->|(r0 & u & Hin & Hu & Hc)].
      * destruct (Hg1 n) as [->|(r0 & u & Hin & Hu & Hc)]; [by left|].
        right. exists r0, u. split_and!; try done.
        apply elem_of_app. by left.
      * right. exists r0, u. split_and!; try done.
        apply elem_of_app. by right.
  - destruct (rmatch r1 i s c k) as [y|] eqn:E.
    + intros [= ->]. apply IH1 in E as (t & s' & c' & -> & H & Ha & Hg).
      exists t, s', c'. split_and!; try done. by right.
    + intros H. exists "", s, c. rewrite Nat.add_0_r.
      split_and!; try done; by left.
  - destruct s as [|a s]; [done|]. destruct (p a) eqn:Ep; [|done]. intros H.
    apply star_sound in H as (t & s' & -> & Ht & H).
    exists (String a t), s', c. cbn [String.length].
    rewrite Nat.add_succ_r. split_and!; try done.
    + split; [done|]. cbn [all]. by rewrite Ep, Ht.
    + by left.
  - intros H. apply IH1 in H as (t & s' & c' & -> & H & Ha & Hg).
    rewrite consumed_append in H.
    exists t, s', (<[m := Some t]> c'). split_and!; try done.
    intros n. cbn [group_patterns].
    destruct (decide (n = m)) as [->|Hne].
    + destruct (decide (m < length c')) as [Hlt|Hge].
      * right. exists r1, t. split_and!; try done; [by left|].
        by apply list_lookup_insert_eq.
      * rewrite list_insert_ge by lia.
        destruct (Hg m) as [->|(r0 & u & Hin & Hu & Hc)]; [by left|].
        right. exists r0, u. split_and!; try done. by right.
    + rewrite list_lookup_insert_ne by done.
      destruct (Hg n) as [->|(r0 & u & Hin & Hu & Hc)]; [by left|].
      right. exists r0, u. split_and!; try done. by right.
Qed.

Lemma exec_from_sound r s : forall i c,
  exec_from r i s = Some c ->
  forall n,
    c !! n = replicate (size r) None !! n \/
    exists r1 u,
      (n, r1) ∈ group_patterns (Capture 0 r) /\ accepts r1 u /\
      c !! n = Some (Some u).
Proof.
  induction s as [|a s IH]; intros i c; cbn [exec_from];
    destruct (rmatch _ _ _ _ _) as [y|] eqn:E; try done.
  - intros [= ->].
    by apply rmatch_sound in E as (t & s' & c' & _ & [= ->] & _ & H).
  - intros [= ->].
    by apply rmatch_sound in E as (t & s' & c' & _ & [= ->] & _ & H).
  - eauto.
Qed.

End CaptureFacts.

Section DescriptorFacts.

Import Regex RegexLang.

(** The groups of [regexCommandHelp]. *)
Lemma regexCommandHelp_groups :
  group_patterns (Capture 0 regexCommandHelp) =
  [ (0, regexCommandHelp); (1, Char letter); (2, Plus lower);
    (3, Plus lower_or_equals); (4, Plus dot) ].
Proof. reflexivity. Qed.

(** A group of a match is [undefined] or holds a text of its pattern. *)
Lemma exec_group line c n :
  exec regexCommandHelp line = Some c ->
  n < 5 ->
  c !! n = Some None \/
  exists r u,
    (n, r) ∈ group_patterns (Capture 0 regexCommandHelp) /\
    accepts r u /\ c !! n = Some (Some u).
Proof.
  intros E Hn. destruct (exec_from_sound _ _ _ _ E n) as [Hc|Hc]; [|by right].
  left. rewrite Hc. change (size regexCommandHelp) with 5.
  by apply lookup_replicate_2.
Qed.

Ltac pick_group Hin :=
  rewrite regexCommandHelp_groups in Hin;
  repeat (apply elem_of_cons in Hin as [Hin|Hin];
          [try discriminate Hin|]);
  [injection Hin as ->|by apply elem_of_nil in Hin].

Lemma parse_line_fields line opt message :
  parse_line line = Some (opt, message) ->
  (Opt.option opt <> "" /\ all lower (Opt.option opt) = true) /\
  (Opt.short opt = None \/
   exists a, letter a = true /\ Opt.short opt = Some (String a "")) /\
  Opt.hasValue opt = true /\
  Opt.isPublic opt = includes availableOptions (Opt.option opt) /\
  (message <> "" /\ all dot message = true).
Proof.
  intros Hp. pose proof (parse_line_hasValue _ _ _ Hp) as Hv.
  unfold parse_line in Hp.
  destruct (Regex.exec regexCommandHelp line) as [c|] eqn:E; [|done].
  assert (H2 : exists u, c !! 2 = Some (Some u) /\ accepts (Plus lower) u).
  { destruct (exec_from_nonempty _ 2 _ _ _ E eq_refl) as (u & Hu & Hc);
      [cbn; lia|].
    destruct (exec_group _ _ 2 E) as [Hc'|(r & u' & Hin & Ha & Hc')];
      [lia|congruence|].
    pick_group Hin. by exists u'. }
  assert (H4 : exists u, c !! 4 = Some (Some u) /\ accepts (Plus dot) u).
  { destruct (exec_from_nonempty _ 4 _ _ _ E eq_refl) as (u & Hu & Hc);
      [cbn; lia|].
    destruct (exec_group _ _ 4 E) as [Hc'|(r & u' & Hin & Ha & Hc')];
      [lia|congruence|].
    pick_group Hin. by exists u'. }
  assert (H1 : c !! 1 = Some None \/
               exists a, letter a = true /\
                         c !! 1 = Some (Some (String a ""))).
  { destruct (exec_group _ _ 1 E) as [Hc'|(r & u' & Hin & Ha & Hc')];
      [lia|by left|].
    pick_group Hin. right. destruct Ha as (a & -> & Ha). by exists a. }
  destruct H2 as (name & Hc2 & Hn & Hl). destruct H4 as (text & Hc4 & Hm & Hd).
  injection Hp as <- <-. cbn [Opt.option Opt.short Opt.isPublic].
  rewrite Hc2, Hc4. simpl. split_and!; try done.
  destruct H1 as [->|(a & Ha & ->)]; [by left|right; by exists a].
Qed.

Lemma parse_lines_fields lines :
  Forall (fun opt =>
            (Opt.option opt <> "" /\ all lower (Opt.option opt) = true) /\
            (Opt.short opt = None \/
             exists a, letter a = true /\
                       Opt.short opt = Some (String a "")) /\
            Opt.hasValue opt = true /\
            Opt.isPublic opt = includes availableOptions (Opt.option opt))
         (parse_lines lines).1.
Proof.
  induction lines as [|line lines IH]; cbn [parse_lines]; [constructor|].
  destruct (parse_lines lines) as [opts help].
  destruct (parse_line line) as [[opt message]|] eqn:E; [|done].
  constructor; [|done].
  destruct (parse_line_fields _ _ _ E) as (? & ? & ? & ? & _). done.
Qed.

End DescriptorFacts.

Lemma catalog_fields (helpText : string) (opt : OptionDef) :
  opt ∈ catalog_options (parseHelpInfo helpText) ->
  (Opt.short opt = None \/
   exists a, Regex.letter a = true /\ Opt.short opt = Some (String a "")) /\
  Opt.isPublic opt = includes availableOptions (Opt.option opt).
Proof.
  unfold parseHelpInfo.
  pose proof (parse_lines_fields (split (ascii_of_nat 10) helpText)) as H.
  destruct (parse_lines _) as [opts help]. cbn [fst catalog_options] in *.
  rewrite Forall_forall in H. intros Hin.
  by destruct (H _ Hin) as (_ & ? & _ & ?).
Qed.

(** X13. Whatever the help text, every descriptor of the catalog that
    [parseHelpInfo] builds has a long name made of one or more lower-case
    letters and a short name that is absent or one letter, and is public
    exactly when its long name is in [availableOptions]. *)
Theorem parseHelpInfo_descriptors (helpText : string) :
  Forall (fun opt =>
            (Opt.option opt <> "" /\
             RegexLang.all Regex.lower (Opt.option opt) = true) /\
            (Opt.short opt = None \/
             exists a, Regex.letter a = true /\
                       Opt.short opt = Some (String a "")) /\
            Opt.isPublic opt = includes availableOptions (Opt.option opt))
         (catalog_options (parseHelpInfo helpText)).
Proof.
  unfold parseHelpInfo.
  pose proof (parse_lines_fields (split (ascii_of_nat 10) helpText)) as H.
  destruct (parse_lines _) as [opts help]. cbn [fst catalog_options] in *.
  eapply Forall_impl; [exact H|]. by intros opt (? & ? & _ & ?).
Qed.

(** ** Lines that the pattern of the help text matches *)

Section LayoutFacts.

Import Regex RegexLang.

Lemma append_nil_l (s : string) : ("" +:+ s) = s.
Proof. reflexivity. Qed.

Lemma append_nil_r (s : string) : (s +:+ "") = s.
Proof. induction s as [|a s IH]; [done|]. by rewrite append_cons, IH. Qed.

Lemma consumed_all (s : string) : consumed s "" = s.
Proof. rewrite <- (append_nil_r s) at 1. apply consumed_append. Qed.

Lemma rmatch_seq r1 r2 i s c k :
  rmatch (Seq r1 r2) i s c k =
  rmatch r1 i s c (fun i' s' c' => rmatch r2 i' s' c' k).
Proof. reflexivity. Qed.

Lemma rmatch_capture n r1 i s c k :
  rmatch (Capture n r1) i s c k =
  rmatch r1 i s c (fun i' s' c' => k i' s' (<[n := Some (consumed s s')]> c')).
Proof. reflexivity. Qed.

(** A greedy repetition followed by a text it stops at takes all it can,
    when the continuation accepts that. *)
Lemma star_greedy p t : forall s' i c k x,
  all p t = true ->
  stops p s' = true ->
  k (i + String.length t) s' c = Some x ->
  star p i (t +:+ s') c k = Some x.
Proof.
  induction t as [|a t IH]; intros s' i c k x Ht Hs Hk.
  - rewrite append_nil_l. cbn [String.length] in Hk.
    rewrite Nat.add_0_r in Hk.
    destruct s' as [|b s']; cbn [star]; [done|].
    cbn [stops] in Hs. apply negb_true_iff in Hs. by rewrite Hs.
  - rewrite append_cons. cbn [star]. cbn [all] in Ht.
    apply andb_true_iff in Ht as [Ha Ht]. rewrite Ha.
    rewrite (IH s' (S i) c k x); try done.
    cbn [String.length] in Hk. by rewrite Nat.add_succ_r in Hk.
Qed.

Lemma plus_greedy p t s' i c k x :
  t <> "" ->
  all p t = true ->
  stops p s' = true ->
  k (i + String.length t) s' c = Some x ->
  rmatch (Plus p) i (t +:+ s') c k = Some x.
Proof.
  intros Hne Ht Hs Hk. destruct t as [|a t]; [done|].
  rewrite append_cons. cbn [rmatch]. cbn [all] in Ht.
  apply andb_true_iff in Ht as [Ha Ht]. rewrite Ha.
  apply star_greedy; try done.
  cbn [String.length] in Hk. by rewrite Nat.add_succ_r in Hk.
Qed.

Lemma seq_plus p r2 t s' i c k x :
  t <> "" -> all p t = true -> stops p s' = true ->
  rmatch r2 (i + String.length t) s' c k = Some x ->
  rmatch (Seq (Plus p) r2) i (t +:+ s') c k = Some x.
Proof. intros. rewrite rmatch_seq. by apply plus_greedy. Qed.

Lemma capture_plus n p t s' i c k x :
  t <> "" -> all p t = true -> stops p s' = true ->
  k (i + String.length t) s' (<[n := Some t]> c) = Some x ->
  rmatch (Capture n (Plus p)) i (t +:+ s') c k = Some x.
Proof.
  intros. rewrite rmatch_capture. apply plus_greedy; try done.
  by rewrite consumed_append.
Qed.

Lemma seq_lit a r2 s i c k :
  rmatch (Seq (lit a) r2) i (String a s) c k = rmatch r2 (S i) s c k.
Proof. rewrite rmatch_seq. cbn [rmatch lit]. by rewrite Ascii.eqb_refl. Qed.

Lemma seq_lit' a s i c k :
  rmatch (lit a) i (String a s) c k = k (S i) s c.
Proof. cbn [rmatch lit]. by rewrite Ascii.eqb_refl. Qed.

Lemma seq_start r2 s c k :
  rmatch (Seq Start r2) 0 s c k = rmatch r2 0 s c k.
Proof. reflexivity. Qed.

Lemma seq_optional r1 r2 i s c k :
  rmatch (Seq (Optional r1) r2) i s c k =
  match rmatch r1 i s c (fun i' s' c' => rmatch r2 i' s' c' k) with
  | Some x => Some x
  | None => rmatch r2 i s c k
  end.
Proof. reflexivity. Qed.

Lemma short_group_taken a s i c k :
  letter a = true ->
  rmatch short_group i (String "-" (String a (String "," (String " " s)))) c k
  = k (S (S (S (S i)))) s (<[1 := Some (String a "")]> c).
Proof.
  intros Ha. unfold short_group. cbn [rmatch lit].
  rewrite !Ascii.eqb_refl, Ha. change (space " ") with true. cbn iota.
  change (String a (String "," (String " " s)))
    with (String a "" +:+ String "," (String " " s)).
  by rewrite consumed_append.
Qed.

Lemma short_group_skipped s i c k :
  rmatch short_group i (String "-" (String "-" s)) c k = None.
Proof.
  unfold short_group. cbn [rmatch lit]. rewrite Ascii.eqb_refl.
  by change (letter "-") with false.
Qed.

Lemma exec_from_first r i s c :
  rmatch (Capture 0 r) i s (replicate (size r) None) (fun _ _ c => Some c)
    = Some c ->
  exec_from r i s = Some c.
Proof. intros H. destruct s; cbn [exec_from]; by rewrite H. Qed.

(** No white-space character is a lower-case letter or an equals sign. *)
Lemma space_not_marker a : space a = true -> lower_or_equals a = false.
Proof.
  destruct a as [[] [] [] [] [] [] [] []]; vm_compute; congruence.
Qed.

Lemma stops_gap gap rest :
  gap <> "" -> all space gap = true ->
  stops lower_or_equals (gap +:+ rest) = true.
Proof.
  intros Hne Hg. destruct gap as [|g gap]; [done|].
  rewrite append_cons. cbn [stops all] in *.
  apply andb_true_iff in Hg as [Hg _]. by rewrite (space_not_marker _ Hg).
Qed.

Lemma exec_option_line indent short name marker gap message :
  indent <> "" -> all space indent = true ->
  match short with Some a => letter a = true | None => True end ->
  name <> "" -> all lower name = true ->
  marker <> "" -> all lower_or_equals marker = true ->
  gap <> "" -> all space gap = true ->
  message <> "" -> all dot message = true -> stops space message = true ->
  exec regexCommandHelp (option_line indent short name marker gap message) =
  Some [ Some (option_line indent short name marker gap message);
         (fun a => String a "") <$> short;
         Some name; Some marker; Some message ].
Proof.
  intros Hi1 Hi2 Hs Hn1 Hn2 Hm1 Hm2 Hg1 Hg2 He1 He2 He3.
  unfold exec. apply exec_from_first. rewrite rmatch_capture.
  set (line := option_line indent short name marker gap message).
  unfold regexCommandHelp. cbn zeta. rewrite seq_start.
  unfold line at 1, option_line.
  assert (Htail : forall i c,
    length c = 5 ->
    rmatch
      (Seq (lit "-") (Seq (lit "-") (Seq (Capture 2 (Plus lower))
        (Seq (Seq (lit "=") (Capture 3 (Plus lower_or_equals)))
          (Seq (Plus space) (Seq (Capture 4 (Plus dot)) End))))))
      i ("--" +:+ name +:+ "=" +:+ marker +:+ gap +:+ message) c
      (fun i' s' c' => Some (<[0 := Some (consumed line s')]> c'))
    = Some (<[0 := Some line]>
              (<[4 := Some message]>
                 (<[3 := Some marker]> (<[2 := Some name]> c))))).
  { intros i c Hc. rewrite !append_cons, append_nil_l, !seq_lit.
    rewrite rmatch_seq.
    apply capture_plus; [done|done|reflexivity|]. cbn beta.
    rewrite ?append_nil_l, !rmatch_seq, seq_lit'.
    apply capture_plus; [done|done|by apply stops_gap|]. cbn beta.
    rewrite rmatch_seq. apply plus_greedy; [done|done|done|]. cbn beta.
    rewrite <- (append_nil_r message) at 1. rewrite rmatch_seq.
    apply capture_plus; [done|done|done|]. cbn beta.
    cbn [rmatch]. by rewrite consumed_all. }
  destruct short as [a|].
  - rewrite !append_cons, append_nil_l.
    apply seq_plus; try done.
    rewrite seq_optional, short_group_taken by done.
    rewrite Htail by done. reflexivity.
  - rewrite append_nil_l. apply seq_plus; try done.
    rewrite seq_optional.
    rewrite !append_cons, append_nil_l, short_group_skipped.
    rewrite <- (append_nil_l (String "-" _)), <- !append_cons.
    rewrite Htail by done. reflexivity.
Qed.

End LayoutFacts.

(** X14. A line laid out like the option list of the converter's help
    text is recognised: white space, the short flag if any, the long flag
    in lower-case letters, the value marker, white space, and a
    description that starts with a visible character and holds no line
    break.  Its descriptor carries the short and long name, and the
    description is the message. *)
Theorem parse_line_option_line
    (indent : string) (short : option ascii)
    (name marker gap message : string) :
  indent <> "" -> RegexLang.all Regex.space indent = true ->
  match short with Some a => Regex.letter a = true | None => True end ->
  name <> "" -> RegexLang.all Regex.lower name = true ->
  marker <> "" -> RegexLang.all Regex.lower_or_equals marker = true ->
  gap <> "" -> RegexLang.all Regex.space gap = true ->
  message <> "" -> RegexLang.all Regex.dot message = true ->
  RegexLang.stops Regex.space message = true ->
  parse_line (RegexLang.option_line indent short name marker gap message) =
  Some ({| Opt.short := (fun a => String a "") <$> short;
           Opt.option := name;
           Opt.hasValue := true;
           Opt.isPublic := includes availableOptions name |},
        message).
Proof.
  intros. unfold parse_line. rewrite exec_option_line by done.
  simpl. do 3 f_equal. apply negb_true_iff. by apply String.eqb_neq.
Qed.

(** ** The usage document *)

Section HelpDocument.

Import Regex RegexLang.

(** Splits a conjunction of six facts, keeping the six goals. *)
Ltac split_facts := split; [|split; [|split; [|split; [|split]]]].

(** Where a match stops and what its last group holds: an anchor takes
    no text and sets no group; a pattern that ends on [$] leaves nothing
    of the input; and a group that closes the pattern holds the end of
    the text matched. *)
Lemma rmatch_tail n r : forall i s c k x,
  rmatch r i s c k = Some x ->
  exists t s' c',
    s = (t +:+ s') /\
    k (i + String.length t) s' c' = Some x /\
    length c' = length c /\
    (anchor r = true -> t = "" /\ c' = c) /\
    (to_end r = true -> s' = "") /\
    (closes n r = true -> n < length c ->
       exists front u, t = (front +:+ u) /\ c' !! n = Some (Some u)).
Proof.
  induction r as [| |p|r1 IH1 r2 IH2|r1 IH1|p|m r1 IH1];
    intros i s c k x; cbn [rmatch].
  - destruct (Nat.eqb i 0); [|done]. intros H.
    exists "", s, c. rewrite Nat.add_0_r. by split_facts.
  - destruct s; [|done]. intros H.
    exists "", "", c. rewrite Nat.add_0_r. by split_facts.
  - destruct s as [|a s]; [done|]. destruct (p a); [|done]. intros H.
    exists (String a ""), s, c. simpl. rewrite Nat.add_1_r.
    by split_facts.
  - intros H.
    apply IH1 in H as (t1 & s1 & c1 & -> & H & Hl1 & Ha1 & He1 & Hc1).
    apply IH2 in H as (t2 & s2 & c2 & -> & H & Hl2 & Ha2 & He2 & Hc2).
    exists (t1 +:+ t2), s2, c2.
    rewrite length_append, Nat.add_assoc. split_facts.
    + by rewrite append_assoc.
    + done.
    + congruence.
    + done.
    + done.
    + cbn [closes]. intros Hn Hlt.
      apply orb_true_iff in Hn as [Hn|Hn].
      * destruct (Hc2 Hn) as (front & u & -> & Hu); [by rewrite Hl1|].
        exists (t1 +:+ front), u. by rewrite append_assoc.
      * apply andb_true_iff in Hn as [Hn Ha].
        destruct (Ha2 Ha) as [-> ->].
        destruct (Hc1 Hn Hlt) as (front & u & -> & Hu).
        exists front, u. split; [|done].
        rewrite append_assoc. f_equal.
        clear. induction u as [|a u IH]; [done|].
        by rewrite append_cons, IH.
  - destruct (rmatch r1 i s c k) as [y|] eqn:E.
    + intros [= ->].
      apply IH1 in E as (t & s' & c' & -> & H & Hl & _).
      exists t, s', c'. by split_facts.
    + intros H. exists "", s, c. rewrite Nat.add_0_r. by split_facts.
  - destruct s as [|a s]; [done|]. destruct (p a); [|done]. intros H.
    apply star_inv in H as (t & s' & -> & H).
    exists (String a t), s', c. simpl. rewrite Nat.add_succ_r.
    by split_facts.
  - intros H.
    apply IH1 in H as (t & s' & c' & -> & H & Hl & Ha & He & Hc).
    rewrite consumed_append in H.
    exists t, s', (<[m := Some t]> c'). split_facts.
    + done.
    + done.
    + by rewrite length_insert.
    + done.
    + done.
    + cbn [closes]. intros Hn Hlt.
      destruct (Nat.eqb n m) eqn:Enm.
      * apply Nat.eqb_eq in Enm. subst n. exists "", t.
        split; [done|]. apply list_lookup_insert_eq. by rewrite Hl.
      * apply Nat.eqb_neq in Enm. cbn [orb] in Hn.
        destruct (Hc Hn Hlt) as (front & u & -> & Hu).
        exists front, u. split; [done|].
        by rewrite list_lookup_insert_ne.
Qed.

(** The group that closes a pattern anchored at the end holds the end of
    the text searched. *)
Lemma exec_from_tail r n s : forall i c,
  exec_from r i s = Some c ->
  to_end r = true -> closes n r = true -> n < size r ->
  exists front u, s = (front +:+ u) /\ c !! n = Some (Some u).
Proof.
  assert (Hnow : forall i s c,
            rmatch (Capture 0 r) i s (replicate (size r) None)
                   (fun _ _ c => Some c) = Some c ->
            to_end r = true -> closes n r = true -> n < size r ->
            exists front u, s = (front +:+ u) /\ c !! n = Some (Some u)).
  { intros i s' c E He Hc Hlt.
    apply (rmatch_tail n) in E
      as (t & rest & c' & -> & [= ->] & _ & _ & Hend & Hlast).
    rewrite (Hend He).
    destruct Hlast as (front & u & -> & Hu).
    - cbn [closes]. rewrite Hc. apply orb_true_r.
    - by rewrite length_replicate.
    - exists front, u. split; [|done].
      rewrite append_assoc. f_equal.
      clear. induction u as [|a u IH]; [done|].
      by rewrite append_cons, IH. }
  induction s as [|a s IH]; intros i c; cbn [exec_from];
    destruct (rmatch _ _ _ _ _) as [y|] eqn:E; try done.
  - intros [= ->]. by apply (Hnow i).
  - intros [= ->]. by apply (Hnow i).
  - intros H He Hc Hlt.
    destruct (IH _ _ H He Hc Hlt) as (front & u & -> & Hu).
    by exists (String a front), u.
Qed.

(** The description that [parse_line] reads off a line is the text that
    ends the line, and is not empty. *)
Lemma parse_line_message line opt message :
  parse_line line = Some (opt, message) ->
  message <> "" /\ exists front, line = (front +:+ message).
Proof.
  intros Hp.
  destruct (parse_line_fields _ _ _ Hp) as (_ & _ & _ & _ & Hm & _).
  split; [done|]. unfold parse_line in Hp.
  destruct (Regex.exec regexCommandHelp line) as [c|] eqn:E; [|done].
  apply (exec_from_tail _ 4) in E as (front & u & -> & Hu);
    [|reflexivity|reflexivity|cbn; lia].
  injection Hp as _ <-. rewrite Hu. by exists front.
Qed.

(** The [forEach] over the lines, line by line: the descriptors are those
    of the lines that match, and the help lines those of the public ones
    among them. *)
Lemma parse_lines_entries lines :
  parse_lines lines =
  ((omap parse_line lines).*1,
   (fun entry => help_line entry.1 entry.2) <$>
     filter (fun entry => Opt.isPublic entry.1 = true)
            (omap parse_line lines)).
Proof.
  induction lines as [|line lines IH]; [done|].
  cbn [parse_lines omap list_omap]. rewrite IH.
  destruct (parse_line line) as [[opt message]|]; [|done].
  rewrite filter_cons. cbn [fst snd fmap list_fmap].
  destruct (Opt.isPublic opt); case_decide; done.
Qed.

End HelpDocument.

(** X15. Once [init] has run on the help text, [getHelpText] returns the
    fixed header, then one line for each line of the help text that
    describes a public option, in the order of the help text, made by
    [help_line] from the option and the description read off that line,
    then an empty line, all joined by line feeds; the catalog holds the
    options of the lines that describe one, in the same order.  The
    description read off a line is the text that ends the line, and is
    not empty. *)
Theorem getHelpText_lists_public_options
    (stderr : string) (c : Lifecycle.Instance) :
  let entries := omap parse_line (split (ascii_of_nat 10) stderr) in
  Lifecycle.getHelpText (Lifecycle.init_then stderr c) =
    Some (String.concat (String (ascii_of_nat 10) EmptyString)
            (help_header
             ++ ((fun entry => help_line entry.1 entry.2) <$>
                   filter (fun entry => Opt.isPublic entry.1 = true) entries)
             ++ [""])) /\
  Lifecycle.options (Lifecycle.init_then stderr c) = Some (entries.*1) /\
  forall opt message,
    (opt, message) ∈ entries ->
    exists line front,
      line ∈ split (ascii_of_nat 10) stderr /\
      parse_line line = Some (opt, message) /\
      line = (front +:+ message) /\ message <> "".
Proof.
  intros entries.
  unfold Lifecycle.getHelpText, Lifecycle.init_then, parseHelpInfo.
  cbn [Lifecycle.converterHelpText Lifecycle.options].
  rewrite parse_lines_entries. fold entries.
  cbn [converterHelpText catalog_options].
  split; [done|]. split; [done|].
  intros opt message Hin. unfold entries in Hin.
  apply list_elem_of_omap in Hin as (line & Hline & Hp).
  destruct (parse_line_message _ _ _ Hp) as (Hne & front & Hfront).
  by exists line, front.
Qed.

(** X16. In the usage document the description of every public option
    starts at the same column: its line is a head of 26 characters
    followed by the description. *)
Theorem help_line_column (helpText : string) (opt : OptionDef)
    (message : string) :
  opt ∈ catalog_options (parseHelpInfo helpText) ->
  Opt.isPublic opt = true ->
  exists head,
    help_line opt message = (head +:+ message) /\ String.length head = 26.
Proof.
  intros Hin Hpub.
  destruct (catalog_fields _ _ Hin) as (Hshort & Hinc).
  rewrite Hpub in Hinc. symmetry in Hinc.
  destruct opt as [short name hasValue isPublic].
  cbn [Opt.option Opt.short Opt.isPublic] in *. unfold help_line.
  cbn [Opt.option Opt.short].
  assert (Hname : In name availableOptions).
  { unfold includes in Hinc. apply existsb_exists in Hinc as (x & Hx & He).
    apply String.eqb_eq in He. by subst. }
  destruct Hshort as [->|(a & _ & ->)];
    cbn in Hname;
    repeat (destruct Hname as [<-|Hname]; [eexists; split;
      [cbn; rewrite <- ?append_assoc; reflexivity|reflexivity]|]);
    done.
Qed.

(** ** The converter object *)

Section ObjectFacts.

Import Lifecycle.

Lemma killed_app calls1 : forall c calls2,
  killed c (calls1 ++ calls2) =
  killed c calls1
  ++ killed (foldl (fun c x => (apply_call c x).1) c calls1) calls2.
Proof.
  induction calls1 as [|x calls1 IH]; intros c calls2; [done|].
  cbn [app killed foldl]. by rewrite IH, app_assoc.
Qed.

Lemma killed_stops c calls :
  Forall (fun x => x = Stop) calls ->
  killed c calls =
  match listener c with
  | Some handle => replicate (length calls) handle
  | None => []
  end.
Proof.
  intros HF. induction HF as [|x calls -> _ IH]; [by destruct (listener c)|].
  cbn [killed apply_call]. unfold stopListener.
  destruct (listener c) as [h|] eqn:El; cbn [fst snd flat_map app length];
    by rewrite IH.
Qed.

End ObjectFacts.

(** X17. [stopListener] kills the listener that the last call of
    [startListener] spawned, once for each call, since the handle is
    kept; a listener spawned by an earlier call is not killed by it; and
    before any listener is started it kills nothing. *)
Theorem stopListener_kills_last_started
    (c : Lifecycle.Instance) (calls1 calls2 : list Lifecycle.call)
    (handle : nat) :
  Forall (fun x => x = Lifecycle.Stop) calls2 ->
  Lifecycle.killed c (calls1 ++ Lifecycle.Start handle :: calls2) =
    Lifecycle.killed c calls1 ++ replicate (length calls2) handle /\
  Lifecycle.killed Lifecycle.new calls2 = [].
Proof.
  intros HF. split.
  - rewrite killed_app. f_equal. cbn [Lifecycle.killed Lifecycle.apply_call].
    unfold Lifecycle.startListener at 1 2. cbn [fst snd flat_map app].
    by rewrite killed_stops.
  - by rewrite killed_stops.
Qed.

Lemma split_cons sep s : exists piece pieces, split sep s = piece :: pieces.
Proof.
  induction s as [|a s (piece & pieces & IH)]; cbn [split]; [by eexists _, _|].
  destruct (Ascii.eqb a sep); [by eexists _, _|].
  rewrite IH. by eexists _, _.
Qed.

(** X18. While the help text has not been parsed the converter knows no
    option and has no usage document: [getHelpText] returns [undefined],
    and [parseUrlCommand] rejects every command whose first segment is
    not empty, naming that segment, and returns the defaults for the
    others. *)
Theorem parseUrlCommand_before_ready (commands : string) :
  Lifecycle.getHelpText Lifecycle.new = None /\
  exists name rest,
    split "/" commands = name :: rest /\
    Lifecycle.parseUrlCommand Lifecycle.new commands =
      if String.eqb name ""
      then inr {| args := []; options := {[ "format" := Str "pdf" ]} |}
      else inl (Error ("invalid option '" +:+ name +:+ "'")).
Proof.
  split; [done|].
  destruct (split_cons "/" commands) as (name & rest & Hs).
  exists name, rest. split; [done|].
  unfold Lifecycle.parseUrlCommand, Converter.parseUrlCommand.
  cbn [Lifecycle.options Lifecycle.new default]. simpl default.
  rewrite Hs. cbn [parse_loop find_option find].
  by destruct (String.eqb name "").
Qed.

(** ** Help texts put together *)

Lemma split_append sep (s1 s2 : string) :
  split sep (s1 +:+ String sep s2) = split sep s1 ++ split sep s2.
Proof.
  induction s1 as [|a s1 IH].
  - rewrite append_nil_l. cbn [split]. by rewrite Ascii.eqb_refl.
  - rewrite append_cons. cbn [split]. destruct (Ascii.eqb a sep); rewrite IH.
    + done.
    + by destruct (split_cons sep s1) as (piece & pieces & ->).
Qed.

Lemma parse_lines_app lines1 lines2 :
  parse_lines (lines1 ++ lines2) =
  ((parse_lines lines1).1 ++ (parse_lines lines2).1,
   (parse_lines lines1).2 ++ (parse_lines lines2).2).
Proof.
  induction lines1 as [|line lines1 IH]; cbn [app parse_lines].
  - by destruct (parse_lines lines2).
  - rewrite IH. destruct (parse_lines lines1) as [opts1 help1].
    destruct (parse_line line) as [[opt message]|]; [|done].
    cbn [fst snd]. by destruct (Opt.isPublic opt).
Qed.

(** X19. The catalog is built line by line: the catalog of two help texts
    joined by a line feed is the catalog of the first followed by the
    catalog of the second, so that what a line yields does not depend on
    the lines around it. *)
Theorem parseHelpInfo_append (text1 text2 : string) :
  catalog_options
    (parseHelpInfo (text1 +:+ String (ascii_of_nat 10) text2)) =
  catalog_options (parseHelpInfo text1)
  ++ catalog_options (parseHelpInfo text2).
Proof.
  unfold parseHelpInfo. rewrite split_append, parse_lines_app.
  destruct (parse_lines (split _ text1)), (parse_lines (split _ text2)).
  reflexivity.
Qed.

(** * The further properties at concrete inputs *)

Section FurtherInstances.

Import Convert Running.

(** X1 at [bogus/1]. *)
Lemma parseUrlCommand_failure_names_segment_bogus :
  exists name,
    name ∈ split "/" "bogus/1" /\ name <> "" /\
    find_option Sample.catalog name = None /\
    Error "invalid option 'bogus'" =
      Error ("invalid option '" +:+ name +:+ "'").
Proof.
  apply (parseUrlCommand_failure_names_segment Sample.catalog "bogus/1").
  reflexivity.
Defined.

(** X2 at [output/result]. *)
Lemma parseUrlCommand_options_keys_output :
  truthy (get (options Examples.output_command) "format") = true /\
  dom (options Examples.output_command) =
    {[ "format" ]}
    ∪ list_to_set (supplied Sample.catalog (split "/" "output/result")).
Proof.
  apply (parseUrlCommand_options_keys Sample.catalog "output/result").
  vm_compute; reflexivity.
Defined.

(** X3 at [output/result]. *)
Lemma parseUrlCommand_args_length_output :
  length (args Examples.output_command) = 1 + 1.
Proof.
  refine (parseUrlCommand_args_length Sample.catalog "output/result"
            Examples.output_command _).
  vm_compute; reflexivity.
Defined.

(** X4 at [format/pdf]. *)
Lemma parseUrlCommand_args_strings_pdf :
  exists cmd,
    parseUrlCommand Sample.catalog "format/pdf" = inr cmd /\
    forallb Parsing.is_string (args cmd) = true.
Proof.
  apply (proj2 (parseUrlCommand_args_strings Sample.catalog "format/pdf")).
  reflexivity.
Defined.

(** X5 at [format/pdf//bogus/1]. *)
Lemma parseUrlCommand_ignores_rest_bogus :
  exists cmd,
    parseUrlCommand Sample.catalog "format/pdf//bogus/1" = inr cmd /\
    forallb Parsing.is_string (args cmd) = true /\
    forall commands',
      split "/" commands' = ["format"; "pdf"] \/
      (exists rest', split "/" commands' = ["format"; "pdf"] ++ "" :: rest') ->
      parseUrlCommand Sample.catalog commands' = inr cmd.
Proof.
  apply (parseUrlCommand_ignores_rest_after_empty_segment Sample.catalog
           "format/pdf//bogus/1" ["format"; "pdf"] ["bogus"; "1"]);
    reflexivity.
Defined.

(** X6 when the timer fires and the converter complains before it
    exits. *)
Lemma convert_pending_until_exit_timer :
  conversion
    (run Sample.runtime Sample.pdf_job (first_state ∅)
         [TimerFired; StderrData ["E"%byte]]) = Pending /\
  Forall (fun a => a = Kill)
    (requests Sample.runtime Sample.pdf_job (first_state ∅)
       [TimerFired; StderrData ["E"%byte]]).
Proof.
  apply (convert_pending_until_exit Sample.runtime "/data/report.docx" []
           {[ "format" := Str "pdf" ]} ∅ Sample.pdf_job (first_state ∅)
           Examples.pdf_start).
  - vm_compute; reflexivity.
  - repeat constructor; discriminate.
Defined.

(** X7 when the converter exits without output. *)
Lemma convert_outcomes_no_output :
  match conversion
          (run Sample.runtime Sample.pdf_job (first_state ∅) [Exit]) with
  | Pending => True
  | Resolved path => path = "/tmp/report.pdf"
  | Rejected e =>
      e = ConversionTimedOut Sample.runtime (Number (Num 600)) \/
      exists chunks,
        chunks <> [] /\ e = ConversionFailed Sample.runtime chunks
  end.
Proof.
  refine (convert_outcomes Sample.runtime "/data/report.docx" []
            {[ "format" := Str "pdf" ]} ∅ Sample.pdf_job (first_state ∅)
            Examples.pdf_start [Exit] _).
  vm_compute; reflexivity.
Defined.

(** X8 when the converter exits without output. *)
Lemma convert_reaper_on_rejection_no_output :
  length (filter (fun a => is_lookup a = true)
            (requests Sample.runtime Sample.pdf_job (first_state ∅) [Exit]))
  = 1.
Proof.
  refine (convert_reaper_on_rejection Sample.runtime "/data/report.docx" []
            {[ "format" := Str "pdf" ]} ∅ Sample.pdf_job (first_state ∅)
            Examples.pdf_start [Exit] _).
  vm_compute; reflexivity.
Defined.

(** X9 when the timer fires and a second exit is reported after the job
    was rejected. *)
Lemma convert_settles_once_rejected :
  conversion
    (run Sample.runtime Sample.pdf_job (first_state ∅)
         ([Exit] ++ [TimerFired; Exit])) =
  conversion (run Sample.runtime Sample.pdf_job (first_state ∅) [Exit]).
Proof.
  apply (convert_settles_once Sample.runtime "/data/report.docx" []
           {[ "format" := Str "pdf" ]} ∅ Sample.pdf_job (first_state ∅)
           Examples.pdf_start).
  - vm_compute; reflexivity.
  - vm_compute. discriminate.
Defined.

(** X10 for the html job, the archive being written before its stream
    closes. *)
Lemma convert_removal_spares_archive_report :
  let st := run Sample.runtime Sample.html_job
              (first_state Sample.html_files)
              [Exit; Created "/tmp/report.zip"; ArchiveClose] in
  let st' := (step Sample.runtime Sample.html_job st (RimrafDone true)).1 in
  ("/tmp/report/report.html" ∉ fs st') /\
  ("/tmp/report.zip" ∈ fs st -> "/tmp/report.zip" ∈ fs st') /\
  (forall p, p ∈ fs st -> inside "/tmp/report" p = false -> p ∈ fs st').
Proof.
  refine (convert_removal_spares_archive Sample.runtime "/data/report.docx"
            [] {[ "format" := Str "html" ]} Sample.html_files
            Sample.html_job (first_state Sample.html_files)
            Examples.html_start
            [Exit; Created "/tmp/report.zip"; ArchiveClose] _ _).
  - vm_compute; reflexivity.
  - vm_compute. discriminate.
Defined.

(** X11 at [format/pdf] with the sample catalog. *)
Lemma convert_accepts_parsed_options_pdf :
  exists job acts format stem,
    convert Sample.runtime "/data/report.docx"
      (args Examples.pdf_command) (options Examples.pdf_command) ∅ =
      inr (job, first_state ∅, acts) /\
    get (options Examples.pdf_command) "format" = Str format /\
    format <> "" /\
    outputFile job = stem +:+ "." +:+ format /\
    Spawn "unoconv"
      (args Examples.pdf_command
       ++ [Str "--output"; Str (outputFile job); Str "/data/report.docx"])
      ∈ acts.
Proof.
  apply (convert_accepts_parsed_options Sample.runtime Sample.catalog
           "format/pdf").
  - repeat constructor.
  - vm_compute; reflexivity.
Defined.


(** X14 at the line of the [format] option. *)
Lemma parse_line_option_line_format :
  parse_line "  -f, --format=format      specify the output format" =
  Some (Examples.format_option, "specify the output format").
Proof.
  refine (parse_line_option_line "  " (Some "f"%char) "format" "format"
            "      " "specify the output format"
            _ _ _ _ _ _ _ _ _ _ _ _);
    first [discriminate | reflexivity].
Defined.

(** X16 at the [format] option of the sample catalog. *)
Lemma help_line_column_format :
  exists head,
    help_line Examples.format_option "specify the output format" =
      (head +:+ "specify the output format") /\
    String.length head = 26.
Proof.
  apply (help_line_column Sample.helpText).
  - change (catalog_options (parseHelpInfo Sample.helpText))
      with Sample.catalog.
    do 3 (apply elem_of_cons; right). apply elem_of_cons. by left.
  - reflexivity.
Defined.

(** X17 when a second listener is started and stopped twice. *)
Lemma stopListener_kills_last_started_twice :
  Lifecycle.killed Lifecycle.new
    ([Lifecycle.Stop; Lifecycle.Start 1] ++
     Lifecycle.Start 2 :: [Lifecycle.Stop; Lifecycle.Stop]) =
    Lifecycle.killed Lifecycle.new [Lifecycle.Stop; Lifecycle.Start 1]
    ++ replicate 2 2 /\
  Lifecycle.killed Lifecycle.new [Lifecycle.Stop; Lifecycle.Stop] = [].
Proof.
  apply (stopListener_kills_last_started Lifecycle.new
           [Lifecycle.Stop; Lifecycle.Start 1]
           [Lifecycle.Stop; Lifecycle.Stop] 2).
  repeat constructor.
Defined.

End FurtherInstances.
